(** * Benthos transaction runtime: fan-out broker, resource output, archive
      processor and the MQTT / Redis writers.

    A shallow embedding of the Go sources

      - internal/impl/generic/output_broker_fan_out.go
      - internal/old/output/resource.go
      - internal/old/output/writer/redis_list.go and redis_hash.go, and the
        MQTT writer of the same package
      - internal/old/processor/archive.go

    together with the properties their specification states about them. *)

From Stdlib Require Import ZArith Lia Strings.Byte.
From stdpp Require Import base option list gmap strings.
From Stdlib Require Import Ascii.

Local Open Scope Z_scope.

(** ** Go values shared by all components *)

(** A non-nil Go [error].  The sentinels of [internal/component] are kept
    apart from errors built with [fmt.Errorf] or handed back by a client
    library. *)
Inductive err : Type :=
| ErrNotConnected
| ErrAlreadyStarted
| ErrTimeout
| ErrMsg (msg : string)
| ErrWrap (prefix : string) (cause : err).   (* fmt.Errorf("prefix: %v", cause) *)

(** A Go value of interface type [error]: [None] is [nil]. *)
Definition error : Type := option err.

#[global] Instance byte_eq_dec : EqDecision byte := Byte.byte_eq_dec.

#[global] Instance err_eq_dec : EqDecision err.
Proof. solve_decision. Defined.

(** ** JSON documents *)

(** The documents [encoding/json] accepts (RFC 8259), read from a byte
    payload.  Numbers and strings keep their source text. *)
Module JSON.

#[warnings="-register-all"]
Inductive value : Type :=
| Null
| Bool (b : bool)
| Number (lit : list byte)
| String (raw : list byte)
| Array (vs : list value)
| Object (ms : list (list byte * value)).

Definition in_range (lo hi : N) (b : byte) : bool :=
  let n := Byte.to_N b in ((lo <=? n) && (n <=? hi))%N.

Definition is_ws (b : byte) : bool :=
  Byte.eqb b x20 || Byte.eqb b x09 || Byte.eqb b x0a || Byte.eqb b x0d.

Definition is_digit : byte -> bool := in_range 48 57.

Definition is_hex (b : byte) : bool :=
  is_digit b || in_range 65 70 b || in_range 97 102 b.

(** The characters that may follow a backslash, [u] apart. *)
Definition is_escape (b : byte) : bool :=
  Byte.eqb b x22 || Byte.eqb b x5c || Byte.eqb b x2f || Byte.eqb b x62
  || Byte.eqb b x66 || Byte.eqb b x6e || Byte.eqb b x72 || Byte.eqb b x74.

Fixpoint skip_ws (s : list byte) : list byte :=
  match s with
  | b :: r => if is_ws b then skip_ws r else s
  | [] => []
  end.

Fixpoint digits (s : list byte) : list byte * list byte :=
  match s with
  | b :: r => if is_digit b then let '(ds, r') := digits r in (b :: ds, r')
              else ([], s)
  | [] => ([], [])
  end.

(** The text of a string after its opening quote, and what follows the
    closing quote. *)
Fixpoint string_body (s : list byte) : option (list byte * list byte) :=
  match s with
  | [] => None
  | b :: r =>
      if Byte.eqb b x22 then Some ([], r)
      else if Byte.eqb b x5c then
        match r with
        | c :: r1 =>
            if is_escape c then
              match string_body r1 with
              | Some (t, r') => Some (b :: c :: t, r')
              | None => None
              end
            else if Byte.eqb c x75 then
              match r1 with
              | h1 :: h2 :: h3 :: h4 :: r2 =>
                  if is_hex h1 && is_hex h2 && is_hex h3 && is_hex h4 then
                    match string_body r2 with
                    | Some (t, r') => Some (b :: c :: h1 :: h2 :: h3 :: h4 :: t, r')
                    | None => None
                    end
                  else None
              | _ => None
              end
            else None
        | [] => None
        end
      else if in_range 0 31 b then None
      else match string_body r with
           | Some (t, r') => Some (b :: t, r')
           | None => None
           end
  end.

(** [-? int frac? exp?] *)
Definition number (s : list byte) : option (list byte * list byte) :=
  let '(sign, s1) := match s with
                     | b :: r => if Byte.eqb b x2d then ([b], r) else ([], s)
                     | [] => ([], s)
                     end in
  let '(int, s2) := digits s1 in
  match int with
  | [] => None
  | d :: ds =>
      if Byte.eqb d x30 && negb (bool_decide (ds = [])) then None else
      let frac :=
        match s2 with
        | b :: r =>
            if Byte.eqb b x2e then
              let '(fs, r') := digits r in
              match fs with [] => None | _ => Some (b :: fs, r') end
            else Some ([], s2)
        | [] => Some ([], s2)
        end in
      match frac with
      | None => None
      | Some (fr, s3) =>
          let exp :=
            match s3 with
            | b :: r =>
                if Byte.eqb b x65 || Byte.eqb b x45 then
                  let '(sg, r1) :=
                    match r with
                    | c :: r0 => if Byte.eqb c x2b || Byte.eqb c x2d
                                 then ([c], r0) else ([], r)
                    | [] => ([], r)
                    end in
                  let '(es, r') := digits r1 in
                  match es with [] => None | _ => Some (b :: sg ++ es, r') end
                else Some ([], s3)
            | [] => Some ([], s3)
            end in
          match exp with
          | None => None
          | Some (ex, s4) => Some (sign ++ int ++ fr ++ ex, s4)
          end
      end
  end.

Definition literal (word : list byte) (s : list byte) : option (list byte) :=
  if bool_decide (take (length word) s = word)
  then Some (drop (length word) s) else None.

(** One value, then the elements of an array after [[], then the members of
    an object after [{]; [fuel] bounds the nesting and the number of items. *)
Fixpoint parse_value (fuel : nat) (s : list byte) : option (value * list byte) :=
  match fuel with
  | O => None
  | S f =>
      match skip_ws s with
      | [] => None
      | b :: r =>
          if Byte.eqb b x22 then
            match string_body r with
            | Some (t, r') => Some (String t, r')
            | None => None
            end
          else if Byte.eqb b x5b then
            match skip_ws r with
            | c :: r' => if Byte.eqb c x5d then Some (Array [], r')
                         else parse_elements f r []
            | [] => None
            end
          else if Byte.eqb b x7b then
            match skip_ws r with
            | c :: r' => if Byte.eqb c x7d then Some (Object [], r')
                         else parse_members f r []
            | [] => None
            end
          else if Byte.eqb b x6e then
            match literal [x75; x6c; x6c] r with
            | Some r' => Some (Null, r') | None => None end
          else if Byte.eqb b x74 then
            match literal [x72; x75; x65] r with
            | Some r' => Some (Bool true, r') | None => None end
          else if Byte.eqb b x66 then
            match literal [x61; x6c; x73; x65] r with
            | Some r' => Some (Bool false, r') | None => None end
          else
            match number (b :: r) with
            | Some (lit, r') => Some (Number lit, r')
            | None => None
            end
      end
  end
with parse_elements (fuel : nat) (s : list byte) (acc : list value)
  : option (value * list byte) :=
  match fuel with
  | O => None
  | S f =>
      match parse_value f s with
      | None => None
      | Some (v, r) =>
          match skip_ws r with
          | c :: r' =>
              if Byte.eqb c x2c then parse_elements f r' (v :: acc)
              else if Byte.eqb c x5d then Some (Array (rev (v :: acc)), r')
              else None
          | [] => None
          end
      end
  end
with parse_members (fuel : nat) (s : list byte) (acc : list (list byte * value))
  : option (value * list byte) :=
  match fuel with
  | O => None
  | S f =>
      match skip_ws s with
      | q :: r0 =>
          if Byte.eqb q x22 then
            match string_body r0 with
            | None => None
            | Some (k, r1) =>
                match skip_ws r1 with
                | c :: r2 =>
                    if Byte.eqb c x3a then
                      match parse_value f r2 with
                      | None => None
                      | Some (v, r3) =>
                          match skip_ws r3 with
                          | d :: r4 =>
                              if Byte.eqb d x2c
                              then parse_members f r4 ((k, v) :: acc)
                              else if Byte.eqb d x7d
                              then Some (Object (rev ((k, v) :: acc)), r4)
                              else None
                          | [] => None
                          end
                      end
                    else None
                | [] => None
                end
            end
          else None
      | [] => None
      end
  end.

(** The compact text of a document: items in source order, numbers and
    strings as they were read. *)
Fixpoint Marshal (v : value) : list byte :=
  match v with
  | Null => [x6e; x75; x6c; x6c]
  | Bool true => [x74; x72; x75; x65]
  | Bool false => [x66; x61; x6c; x73; x65]
  | Number lit => lit
  | String raw => x22 :: raw ++ [x22]
  | Array vs =>
      x5b :: (fix items (l : list value) : list byte :=
                match l with
                | [] => []
                | v :: r => Marshal v ++
                            match r with [] => [] | _ :: _ => x2c :: items r end
                end) vs ++ [x5d]
  | Object ms =>
      x7b :: (fix members (l : list (list byte * value)) : list byte :=
                match l with
                | [] => []
                | (k, v) :: r =>
                    (x22 :: k ++ [x22; x3a]) ++ Marshal v ++
                    match r with [] => [] | _ :: _ => x2c :: members r end
                end) ms ++ [x7d]
  end.

(** A payload is a document when one value spans it, white space apart. *)
Definition Unmarshal (s : list byte) : value + err :=
  match parse_value (S (length s)) s with
  | Some (v, r) =>
      match skip_ws r with
      | [] => inl v
      | _ :: _ => inr (ErrMsg "invalid character after top-level value")
      end
  | None => inr (ErrMsg "invalid JSON document")
  end.

End JSON.

(** ** Messages *)

(** Modelled from the spec: the message parts and batches of section 3
    (package internal/message is outside the sources at hand).  A part is a
    byte payload, a metadata mapping and a context; of the context only the
    collapsed count is kept.  The structured value of a part is read from its
    payload on demand.  Parts are values: [Copy] is the identity. *)
Module message.

Record Part : Type := mkPart {
  data : list byte;
  metadata : gmap string string;
  collapsedCount : option nat
}.

Abbreviation Batch := (list Part).

Definition NewPart (b : list byte) : Part := mkPart b ∅ None.

(** [p.Get()], [p.Set(b)] (written [Set_]), [p.JSON()], [p.SetJSON(v)] and
    [p.Copy()]. *)
Definition Get (p : Part) : list byte := data p.

Definition Set_ (p : Part) (b : list byte) : Part :=
  mkPart b (metadata p) (collapsedCount p).

Definition JSON (p : Part) : JSON.value + err := JSON.Unmarshal (data p).

Definition SetJSON (p : Part) (v : JSON.value) : Part :=
  mkPart (JSON.Marshal v) (metadata p) (collapsedCount p).

Definition Copy (p : Part) : Part := p.

(** [msg.Len()] and [msg.Get(i)]; an index outside the batch yields an empty
    part. *)
Definition Len (msg : Batch) : nat := length msg.

Definition BatchGet (msg : Batch) (i : nat) : Part :=
  default (NewPart []) (msg !! i).

(** Go's conversion [byte(x)] and its inverse widening. *)
Definition byte_of_Z (z : Z) : byte :=
  default x00 (Byte.of_N (Z.to_N (z mod 256))).

Definition Z_of_byte (b : byte) : Z := Z.of_N (Byte.to_N b).

(** Four bytes, big endian, of [uint32(n)]. *)
Definition be32 (n : Z) : list byte :=
  let u := n mod 2 ^ 32 in
  [byte_of_Z (Z.shiftr u 24); byte_of_Z (Z.shiftr u 16);
   byte_of_Z (Z.shiftr u 8); byte_of_Z u].

Definition of_be32 (b0 b1 b2 b3 : byte) : Z :=
  Z.lor (Z.lor (Z.lor (Z.shiftl (Z_of_byte b0) 24) (Z.shiftl (Z_of_byte b1) 16))
               (Z.shiftl (Z_of_byte b2) 8)) (Z_of_byte b3).

(** Modelled from the spec: [message.ToBytes], by the [binary] format that
    archive.go documents: "Four bytes containing number of messages in the
    batch (in big endian)", then for each message part "Four bytes containing
    the length of the message (in big endian)" and "The content of
    message". *)
Definition ToBytes (msg : Batch) : list byte :=
  be32 (Z.of_nat (Len msg)) ++
  flat_map (fun p => be32 (Z.of_nat (length (Get p))) ++ Get p) msg.

(** Modelled from the spec: [message.FromBytes], the reader of that format,
    which the [binary] unarchiver applies.  A blob that ends before the
    announced content is refused. *)
Fixpoint read_parts (n : nat) (b : list byte) : option (list (list byte)) :=
  match n with
  | O => Some []
  | S k =>
      match b with
      | b0 :: b1 :: b2 :: b3 :: rest =>
          let size := Z.to_nat (of_be32 b0 b1 b2 b3) in
          if (length rest <? size)%nat then None
          else match read_parts k (drop size rest) with
               | Some ps => Some (take size rest :: ps)
               | None => None
               end
      | _ => None
      end
  end.

Definition FromBytes (b : list byte) : option (list (list byte)) :=
  match b with
  | b0 :: b1 :: b2 :: b3 :: rest =>
      read_parts (Z.to_nat (of_be32 b0 b1 b2 b3)) rest
  | _ => None
  end.

End message.

(** ** Batch errors *)

(** Modelled from the spec: [ibatch.Error] with [NewError] and [Failed]
    (package internal/batch is outside the sources at hand), "a structured
    error carrying per-index outcomes". *)
Module ibatch.

Record Error : Type := mkError {
  cause : err;
  source : message.Batch;
  partErrors : gmap nat err
}.

Definition NewError (msg : message.Batch) (e : err) : Error :=
  mkError e msg ∅.

Definition Failed (b : Error) (i : nat) (e : err) : Error :=
  mkError (cause b) (source b) (<[i := e]> (partErrors b)).

(** Modelled from the spec: [batch.WithCollapsedCount], which marks a part
    as standing for [count] messages "so that downstream ack accounting
    reflects the original batch size". *)
Definition WithCollapsedCount (p : message.Part) (count : nat) : message.Part :=
  message.mkPart (message.data p) (message.metadata p) (Some count).

End ibatch.

(** A channel of transactions, named by an identifier.  A Go channel variable
    is nilable: it is modelled as [option chan]. *)
Definition chan : Type := nat.

(** ** The shutdown signaller *)

(** Modelled from the spec: [shutdown.Signaller] (internal/shutdown is outside
    the sources at hand), the primitive of section 4.10 with two escalation
    levels and a terminal state.  Each flag stands for "the channel of that
    name has been closed". *)
Module Signaller.

Record t : Type := mk {
  closeAtLeisureChan : bool;
  closeNowChan : bool;
  hasClosedChan : bool
}.

Definition NewSignaller : t := mk false false false.

Definition CloseAtLeisure (s : t) : t :=
  mk true (closeNowChan s) (hasClosedChan s).

Definition CloseNow (s : t) : t :=
  mk true true (hasClosedChan s).

Definition ShutdownComplete (s : t) : t :=
  mk (closeAtLeisureChan s) (closeNowChan s) true.

End Signaller.

(** ** Waiting on a channel with a timeout *)

(** The statement

      select { case <-done: ; case <-time.After(timeout): return ErrTimeout }
      return nil

    run against a clock of discrete ticks.  [done k] tells whether the channel
    is closed [k] ticks after the call; the timer is ready from tick [timeout]
    on.  The select leaves at the first tick at which a case is ready; when
    both are ready at that tick Go picks either, which [pick_timer] decides. *)
Fixpoint select_done_or_timer
    (done : nat -> bool) (pick_timer : bool) (tick remaining : nat) : error :=
  match remaining with
  | O => if done tick && negb pick_timer then None else Some ErrTimeout
  | S r => if done tick then None
           else select_done_or_timer done pick_timer (S tick) r
  end.

(** ** The fan-out output broker *)

Module FanOut.

(** The struct [fanOutOutputBroker].  [outputs] are the child outputs, kept by
    the identifiers of the edges they consume from ([outputTSChans]);
    [loops] counts the goroutines started by [go o.loop()]. *)
Record fanOutOutputBroker : Type := mkBroker {
  transactions : option chan;
  outputTSChans : list chan;
  shutSig : Signaller.t;
  loops : nat
}.

(** [newFanOutOutputBroker]: one fresh edge per child, each handed to the
    child's [Consume]; [consume_results] lists what those calls return.  The
    first non-nil result aborts the construction. *)
Fixpoint consume_all (consume_results : list error) (i : nat) : list chan + err :=
  match consume_results with
  | [] => inl []
  | None :: rest =>
      match consume_all rest (S i) with
      | inl cs => inl (i :: cs)
      | inr e => inr e
      end
  | Some e :: _ => inr e
  end.

Definition newFanOutOutputBroker (consume_results : list error)
  : option fanOutOutputBroker * error :=
  match consume_all consume_results O with
  | inl cs => (Some (mkBroker None cs Signaller.NewSignaller O), None)
  | inr e => (None, Some e)
  end.

(** [Consume], lines 40-48. *)
Definition Consume (o : fanOutOutputBroker) (ts : option chan)
  : fanOutOutputBroker * error :=
  match transactions o with
  | Some _ => (o, Some ErrAlreadyStarted)
  | None =>
      (mkBroker ts (outputTSChans o) (shutSig o) (S (loops o)), None)
  end.

(** [CloseAsync], lines 119-121. *)
Definition CloseAsync (o : fanOutOutputBroker) : fanOutOutputBroker :=
  mkBroker (transactions o) (outputTSChans o)
           (Signaller.CloseAtLeisure (shutSig o)) (loops o).

(** [WaitForClose], lines 123-130.  [hasClosed k] is the state of
    [o.shutSig.HasClosedChan()] [k] ticks after the call. *)
Definition WaitForClose (hasClosed : nat -> bool) (pick_timer : bool)
    (timeout : nat) : error :=
  select_done_or_timer hasClosed pick_timer O timeout.

(** Where one ack closure (the function literal of lines 99-111 of
    output_broker_fan_out.go) stands.  The closures of the N children run on
    the children's goroutines, so their atomic operations interleave. *)
Inductive pc : Type :=
| Pending                 (* the child has not called the closure yet *)
| AtStore (e : error)     (* the test of line 100 succeeded; line 101 is next *)
| AtAck (e : error)       (* line 102, [ts.Ack(ctx, err)], is next *)
| AtDec                   (* line 103, [atomic.AddInt64(&ackPending, -1)] *)
| Returned.               (* the closure has returned *)

#[global] Instance pc_eq_dec : EqDecision pc.
Proof. solve_decision. Defined.

(** What an observer of one consumed transaction sees, in order. *)
Inductive event : Type :=
| ChildAck (i : nat) (e : error)   (* child [i] calls its ack closure with [e] *)
| UpstreamAck (e : error).         (* [ts.Ack(ctx, e)] is called *)

#[global] Instance event_eq_dec : EqDecision event.
Proof. solve_decision. Defined.

(** The variables the closures of one transaction share: the captured
    [pendingResponses], the loop's [ackPending], one program counter per
    child, and the events so far (oldest first). *)
Record state : Type := mkState {
  pendingResponses : Z;
  ackPending : Z;
  callbacks : list pc;
  trace : list event
}.

(** Lines 94-115 of [loop] for one transaction [ts] read from the incoming
    edge, all sends to the child edges accepted: [ackPending] is incremented,
    [pendingResponses] starts at [len(o.outputTSChans)], and every child holds
    a copy of the payload with this closure as its ack function. *)
Definition dispatch (n : nat) (ackPending0 : Z) : state :=
  {| pendingResponses := Z.of_nat n;
     ackPending := ackPending0 + 1;
     callbacks := replicate n Pending;
     trace := [] |}.

Definition is_nil (e : error) : bool :=
  match e with None => true | Some _ => false end.

(** One atomic step of the closure held by child [i].  The argument [e] is
    the error the child passes; it is read only by the first step, the call
    itself, which performs [atomic.AddInt64(&pendingResponses, -1)] and the
    test [== 0 || err != nil] on its result.  The last step lowers
    [ackPending]; the send on [ackInterruptChan] that follows never blocks and
    touches none of these variables.  The counters stay between [-n] and [n]:
    an int64 does not wrap here. *)
Definition step (i : nat) (e : error) (s : state) : state :=
  match callbacks s !! i with
  | Some Pending =>
      let p := pendingResponses s - 1 in
      let next := if (p =? 0) || negb (is_nil e) then AtStore e else Returned in
      {| pendingResponses := p;
         ackPending := ackPending s;
         callbacks := <[i := next]> (callbacks s);
         trace := trace s ++ [ChildAck i e] |}
  | Some (AtStore e') =>
      {| pendingResponses := 0;
         ackPending := ackPending s;
         callbacks := <[i := AtAck e']> (callbacks s);
         trace := trace s |}
  | Some (AtAck e') =>
      {| pendingResponses := pendingResponses s;
         ackPending := ackPending s;
         callbacks := <[i := AtDec]> (callbacks s);
         trace := trace s ++ [UpstreamAck e'] |}
  | Some AtDec =>
      {| pendingResponses := pendingResponses s;
         ackPending := ackPending s - 1;
         callbacks := <[i := Returned]> (callbacks s);
         trace := trace s |}
  | Some Returned | None => s
  end.

(** A schedule names, step by step, the child whose closure moves next and the
    error that child acks with. *)
Definition schedule : Type := list (nat * error).

Definition exec (sched : schedule) (s : state) : state :=
  foldl (fun st a => step a.1 a.2 st) s sched.

(** The whole closure run without interruption: the four steps of child [i]. *)
Definition callback (i : nat) (e : error) : schedule :=
  [(i, e); (i, e); (i, e); (i, e)].

(** The errors handed to the upstream ack, oldest first. *)
Definition upstream_acks (tr : list event) : list error :=
  omap (fun ev => match ev with UpstreamAck e => Some e | ChildAck _ _ => None end) tr.

(** The children that have called their closure, oldest first. *)
Definition child_acks (tr : list event) : list (nat * error) :=
  omap (fun ev => match ev with ChildAck i e => Some (i, e) | UpstreamAck _ => None end) tr.

(** [Connected], lines 50-57; [connected] lists what [out.Connected()]
    returns for each child, in order. *)
Fixpoint Connected (connected : list bool) : bool :=
  match connected with
  | [] => true
  | c :: rest => if negb c then false else Connected rest
  end.

(** What a select of [loop] finds ready: a transaction on the incoming edge,
    the incoming edge closed, the close-at-leisure signal, or a child edge
    taking the send. *)
Inductive ready : Type :=
| Transaction (ts : nat)
| EdgeClosed
| AtLeisure
| Accepted.

(** Where [loop] stands in lines 82-116. *)
Inductive loop_pc : Type :=
| Receiving                          (* the select of lines 85-92 *)
| Sending (ts : nat) (target : nat)  (* the select of lines 98-114 for one child *)
| LoopReturned.                      (* a [return] was reached *)

(** What [loop] has done: the transactions taken from the incoming edge and
    the copies handed to the children, as (child, transaction), oldest
    first. *)
Record loop_state : Type := mkLoop {
  loop_at : loop_pc;
  received : list nat;
  sent : list (nat * nat)
}.

(** The head of [for target := range o.outputTSChans], at index [target]. *)
Definition next_target (n ts target : nat) : loop_pc :=
  if (target <? n)%nat then Sending ts target else Receiving.

(** One select of lines 82-116 with [n] children, given what it finds ready.
    A select does not react to what it does not wait for. *)
Definition loop_step (n : nat) (st : loop_state) (r : ready) : loop_state :=
  match loop_at st, r with
  | Receiving, Transaction ts =>
      mkLoop (next_target n ts O) (received st ++ [ts]) (sent st)
  | Receiving, EdgeClosed | Receiving, AtLeisure =>
      mkLoop LoopReturned (received st) (sent st)
  | Sending ts i, Accepted =>
      mkLoop (next_target n ts (S i)) (received st) (sent st ++ [(i, ts)])
  | Sending ts i, AtLeisure =>
      mkLoop LoopReturned (received st) (sent st)
  | _, _ => st
  end.

(** The loop of lines 82-116 run on what its selects find ready, in order.
    The deferred function of lines 63-80 is not part of it. *)
Definition loop (n : nat) (script : list ready) : loop_state :=
  foldl (loop_step n) (mkLoop Receiving [] []) script.

End FanOut.

(** ** Goroutines *)

(** An object together with the bodies of the goroutines that [go func() {...}()]
    has started on it and that the scheduler has not run yet. *)
Record spawned (T : Type) : Type := mkSpawned {
  obj : T;
  goroutines : list (T -> T)
}.
Arguments mkSpawned {T} _ _.
Arguments obj {T} _.
Arguments goroutines {T} _.

(** The scheduler runs the oldest waiting goroutine to its end. *)
Definition run_next {T : Type} (w : spawned T) : spawned T :=
  match goroutines w with
  | [] => w
  | g :: rest => mkSpawned (g (obj w)) rest
  end.

(** ** The MQTT and Redis writers *)

Module writer.

Local Open Scope nat_scope.

(** A connection held by a client library, named by an identifier. *)
Definition conn : Type := nat.

(** *** The MQTT writer *)

(** The struct [MQTT], of which shutdown touches the client only;
    [mqtt_disconnected] lists the connections on which the writer has called
    [Disconnect]. *)
Record MQTT : Type := mkMQTT {
  mqtt_client : option conn;
  mqtt_disconnected : list conn
}.

(** The body of the goroutine of [CloseAsync], lines 245-250, run under
    [connMut]. *)
Definition mqtt_close_body (m : MQTT) : MQTT :=
  match mqtt_client m with
  | Some c => mkMQTT None (c :: mqtt_disconnected m)
  | None => m
  end.

(** [MQTT.CloseAsync], lines 243-252: the body is handed to a goroutine. *)
Definition MQTT_CloseAsync (w : spawned MQTT) : spawned MQTT :=
  mkSpawned (obj w) (goroutines w ++ [mqtt_close_body]).

(** [MQTT.WaitForClose], lines 255-257. *)
Definition MQTT_WaitForClose (w : spawned MQTT) (timeout : nat) : error := None.

(** *** Redis list (redis_list.go) *)

(** The face of [redis.UniversalClient] the writer uses.  The server's answers
    are part of the client: [RPush key value] is [client.RPush(..).Err()], and
    [Exec cmds] is what [pipe.Exec()] returns for the queued commands, one
    result per command and the error of the exchange. *)
Record RedisClient : Type := mkRedisClient {
  RPush : string -> list byte -> error;
  Exec : list (string * list byte) -> list error * error
}.

(** The struct [RedisList]; [keyStr] is [r.keyStr.String]. *)
Record RedisList : Type := mkRedisList {
  keyStr : nat -> message.Batch -> string;
  list_client : option RedisClient
}.

(** What [WriteWithContext] returns: [nil], a plain error, or a
    [*ibatch.Error]. *)
Inductive write_error : Type :=
| WriteNil
| WriteErr (e : err)
| WriteBatchErr (b : ibatch.Error).

(** [RedisList.disconnect], lines 162-171. *)
Definition disconnect (r : RedisList) : RedisList :=
  match list_client r with
  | Some _ => mkRedisList (keyStr r) None
  | None => r
  end.

(** The loop of lines 141-149 over the command results, from index [i]. *)
Fixpoint failed_cmders (msg : message.Batch) (cmders : list error) (i : nat)
    (batchErr : option ibatch.Error) : option ibatch.Error :=
  match cmders with
  | [] => batchErr
  | None :: rest => failed_cmders msg rest (S i) batchErr
  | Some e :: rest =>
      let b := match batchErr with
               | None => ibatch.NewError msg e
               | Some b => b
               end in
      failed_cmders msg rest (S i) (Some (ibatch.Failed b i e))
  end.

(** [RedisList.WriteWithContext], lines 109-154.  The key of every queued
    command is [r.keyStr.String(0, msg)], as the source has it. *)
Definition WriteWithContext (r : RedisList) (msg : message.Batch)
  : RedisList * write_error :=
  match list_client r with
  | None => (r, WriteErr ErrNotConnected)
  | Some client =>
      if message.Len msg =? 1 then
        let key := keyStr r 0 msg in
        match RPush client key (message.Get (message.BatchGet msg 0)) with
        | Some _ => (disconnect r, WriteErr ErrNotConnected)
        | None => (r, WriteNil)
        end
      else
        let pipe := map (fun p => (keyStr r 0 msg, message.Get p)) msg in
        match Exec client pipe with
        | (_, Some _) => (disconnect r, WriteErr ErrNotConnected)
        | (cmders, None) =>
            match failed_cmders msg cmders 0 None with
            | Some batchErr => (r, WriteBatchErr batchErr)
            | None => (r, WriteNil)
            end
        end
  end.

(** [RedisList.CloseAsync], lines 174-178, and [WaitForClose], 181-183. *)
Definition RedisList_CloseAsync (w : spawned RedisList) : spawned RedisList :=
  mkSpawned (obj w) (goroutines w ++ [disconnect]).

Definition RedisList_WaitForClose (w : spawned RedisList) (timeout : nat)
  : error := None.

(** *** Redis hash (redis_hash.go) *)

(** The struct [RedisHash], of which shutdown touches the client only. *)
Record RedisHash : Type := mkRedisHash {
  hash_client : option RedisClient
}.

(** [RedisHash.CloseAsync], lines 201-203, disconnects on the spot;
    [WaitForClose], lines 206-208. *)
Definition RedisHash_CloseAsync (w : spawned RedisHash) : spawned RedisHash :=
  mkSpawned (mkRedisHash None) (goroutines w).

Definition RedisHash_WaitForClose (w : spawned RedisHash) (timeout : nat)
  : error := None.

(** *** Construction and connection of the writers *)

(** An interpolated field, by its [String(index, msg)]. *)
Definition Expression : Type := nat -> message.Batch -> string.

(** [strings.Split(s, ",")]. *)
Fixpoint split_comma (s : string) : list string :=
  match s with
  | EmptyString => [EmptyString]
  | String c rest =>
      if Ascii.eqb c ","%char then EmptyString :: split_comma rest
      else match split_comma rest with
           | h :: t => String c h :: t
           | [] => [String c EmptyString]
           end
  end.

(** The loop of lines 129-135 of [NewMQTTV2] over [conf.URLs]. *)
Definition expand_urls (URLs : list string) : list string :=
  flat_map (fun u => filter (fun splitURL => (0 < String.length splitURL)%nat)
                            (split_comma u)) URLs.

(** The fields of [MQTTConfig] that [NewMQTTV2] and [Connect] read outside of
    the client options. *)
Record MQTTConfig : Type := mkMQTTConfig {
  URLs : list string;
  Topic : string;
  RetainedInterpolated : string;
  ClientID : string;
  DynamicClientIDSuffix : string;
  ConnectTimeout : string;
  WriteTimeout : string;
  TLSEnabled : bool
}.

(** What the libraries answer during [NewMQTTV2]: [time.ParseDuration],
    [mgr.BloblEnvironment().NewField], [gonanoid.New()] and
    [m.conf.Will.Validate()]. *)
Record MQTTEnv : Type := mkMQTTEnv {
  ParseDuration : string -> Z + err;
  NewField : string -> Expression + err;
  nanoid : string + err;
  WillValidate : error
}.

(** The fields of the struct [MQTT] that [NewMQTTV2] sets; the client and the
    mutex make up [MQTT] above. *)
Record MQTTFields : Type := mkMQTTFields {
  connectTimeout : Z;
  writeTimeout : Z;
  urls : list string;
  clientID : string;
  topic : Expression;
  retained : option Expression
}.

(** [NewMQTTV2], lines 83-138. *)
Definition NewMQTTV2 (env : MQTTEnv) (conf : MQTTConfig)
  : (MQTTFields * MQTT) + err :=
  match ParseDuration env (ConnectTimeout conf) with
  | inr e => inr (ErrWrap "unable to parse connect timeout duration string" e)
  | inl ct =>
  match ParseDuration env (WriteTimeout conf) with
  | inr e => inr (ErrWrap "unable to parse write timeout duration string" e)
  | inl wt =>
  match NewField env (Topic conf) with
  | inr e => inr (ErrWrap "failed to parse topic expression" e)
  | inl tp =>
  match (if String.eqb (RetainedInterpolated conf) "" then inl None
         else match NewField env (RetainedInterpolated conf) with
              | inr e => inr (ErrWrap "failed to parse retained expression" e)
              | inl r => inl (Some r)
              end) with
  | inr e => inr e
  | inl rt =>
  match (if String.eqb (DynamicClientIDSuffix conf) "nanoid" then
           match nanoid env with
           | inr e => inr (ErrWrap "failed to generate nanoid" e)
           | inl nid => inl (ClientID conf +:+ nid)
           end
         else if String.eqb (DynamicClientIDSuffix conf) "" then inl (ClientID conf)
         else inr (ErrMsg ("unknown dynamic_client_id_suffix: "
                           +:+ DynamicClientIDSuffix conf))) with
  | inr e => inr e
  | inl cid =>
  match WillValidate env with
  | Some e => inr e
  | None =>
      inl (mkMQTTFields ct wt (expand_urls (URLs conf)) cid tp rt, mkMQTT None [])
  end end end end end end.

(** [MQTT.Connect], lines 148-201.  [tls_get] is the error of
    [m.conf.TLS.Get()], [tok] the error of the connect token and [client] the
    client [mqtt.NewClient] makes. *)
Definition MQTT_Connect (conf : MQTTConfig) (tls_get tok : error) (client : conn)
    (m : MQTT) : MQTT * error :=
  match mqtt_client m with
  | Some _ => (m, None)
  | None =>
      match (if TLSEnabled conf then tls_get else None) with
      | Some e => (m, Some e)
      | None =>
          match tok with
          | Some e => (m, Some e)
          | None => (mkMQTT (Some client) (mqtt_disconnected m), None)
          end
      end
  end.

(** [RedisList.Connect], lines 89-103.  [new_client] is what
    [r.conf.Config.Client()] returns and [ping] the error of
    [client.Ping().Result()]. *)
Definition RedisList_Connect (new_client : RedisClient + err) (ping : error)
    (r : RedisList) : RedisList * error :=
  match new_client with
  | inr e => (r, Some e)
  | inl client =>
      match ping with
      | Some e => (r, Some e)
      | None => (mkRedisList (keyStr r) (Some client), None)
      end
  end.

(** The fields of [RedisHashConfig] that [NewRedisHashV2] reads. *)
Record RedisHashConfig : Type := mkRedisHashConfig {
  Key : string;
  WalkMetadata : bool;
  WalkJSONObject : bool;
  Fields : gmap string string
}.

(** The parsed fields of a [RedisHash]; the client makes up [RedisHash]
    above. *)
Record RedisHashFields : Type := mkRedisHashFields {
  hash_keyStr : Expression;
  hash_fields : gmap string Expression
}.

(** The loop of lines 81-85 over [conf.Fields]: every value is parsed, and a
    value that does not parse ends the construction.  Go visits a map in no
    fixed order; the order of [map_to_list] stands for it. *)
Fixpoint parse_fields (new_field : string -> Expression + err)
    (kvs : list (string * string)) (acc : gmap string Expression)
  : gmap string Expression + err :=
  match kvs with
  | [] => inl acc
  | (k, v) :: rest =>
      match new_field v with
      | inr e => inr (ErrWrap ("failed to parse field '" +:+ k +:+ "' expression") e)
      | inl x => parse_fields new_field rest (<[k := x]> acc)
      end
  end.

(** [NewRedisHashV2], lines 63-96.  [new_field] is
    [mgr.BloblEnvironment().NewField] and [client] the error of
    [conf.Config.Client()]. *)
Definition NewRedisHashV2 (new_field : string -> Expression + err)
    (client : error) (conf : RedisHashConfig)
  : (RedisHashFields * RedisHash) + err :=
  match new_field (Key conf) with
  | inr e => inr (ErrWrap "failed to parse key expression" e)
  | inl k =>
      match parse_fields new_field (map_to_list (Fields conf)) ∅ with
      | inr e => inr e
      | inl fs =>
          if negb (WalkMetadata conf) && negb (WalkJSONObject conf)
             && (length (map_to_list (Fields conf)) =? 0)
          then inr (ErrMsg "at least one mechanism for setting fields must be enabled")
          else match client with
               | Some e => inr e
               | None => inl (mkRedisHashFields k fs, mkRedisHash None)
               end
      end
  end.

End writer.

(** ** The resource output (resource.go) *)

Module Resource.

Local Open Scope nat_scope.

(** The face of [interop.Manager] the resource output uses. *)
Class Manager (M : Type) : Type := {
  ProbeOutput : M -> string -> bool
}.

(** Modelled from the spec: the outputs table of the resource manager of
    section 4.8, "label -> component", probed by [ProbeOutput]; a stored
    output is kept by the edge it writes to. *)
Record manager : Type := mkManager {
  outputs : gmap string chan
}.

#[global] Instance manager_Manager : Manager manager := {
  ProbeOutput m label := bool_decide (is_Some (outputs m !! label))
}.

(** The struct [Resource].  [ctx_done] tells whether [r.ctx] is cancelled,
    which [r.done()] brings about; [looping] whether a goroutine is inside
    [r.loop()], and [loops] how many were started. *)
Record Resource (M : Type) : Type := mkResource {
  mgr : M;
  name : string;
  transactions : option chan;
  ctx_done : bool;
  loops : nat;
  looping : bool
}.
Arguments mkResource {M} _ _ _ _ _ _.
Arguments mgr {M} _.
Arguments name {M} _.
Arguments transactions {M} _.
Arguments ctx_done {M} _.
Arguments loops {M} _.
Arguments looping {M} _.

(** [NewResource], lines 84-99; [conf_Resource] is [conf.Resource]. *)
Definition NewResource {M : Type} `{Manager M} (conf_Resource : string) (m : M)
  : option (Resource M) * error :=
  if negb (ProbeOutput m conf_Resource) then
    (None, Some (ErrMsg ("output resource '" +:+ conf_Resource +:+ "' was not found")))
  else
    (Some (mkResource m conf_Resource None false 0 false), None).

(** [Resource.Consume], lines 141-148. *)
Definition Consume {M : Type} (r : Resource M) (ts : option chan)
  : Resource M * error :=
  match transactions r with
  | Some _ => (r, Some ErrAlreadyStarted)
  | None =>
      (mkResource (mgr r) (name r) ts (ctx_done r) (S (loops r)) true, None)
  end.

(** [Resource.CloseAsync], lines 163-165: [r.done()]. *)
Definition CloseAsync {M : Type} (r : Resource M) : Resource M :=
  mkResource (mgr r) (name r) (transactions r) true (loops r) (looping r).

(** The two ways out of [r.loop()] once the context is cancelled or the edge
    is closed: lines 109-115 and 129-130. *)
Definition loop_return {M : Type} (edge_closed : bool) (r : Resource M)
  : Resource M :=
  if edge_closed then
    mkResource (mgr r) (name r) (transactions r) true (loops r) false
  else if ctx_done r then
    mkResource (mgr r) (name r) (transactions r) true (loops r) false
  else r.

(** [Resource.WaitForClose], lines 168-175.  [ctxDone k] is the state of
    [r.ctx.Done()] [k] ticks after the call. *)
Definition WaitForClose (ctxDone : nat -> bool) (pick_timer : bool)
    (timeout : nat) : error :=
  select_done_or_timer ctxDone pick_timer O timeout.

(** What a select of [r.loop()], or its call of [AccessOutput], comes back
    with: a transaction on the edge, the edge closed, the context cancelled,
    the error of the write (that of [AccessOutput] if it has one, else that of
    [WriteTransaction]), or the timer of one second. *)
Inductive ready : Type :=
| Transaction (t : nat)
| EdgeClosed
| CtxDone
| Written (e : error)
| TimerFired.

(** Where [r.loop()] stands, lines 103-136. *)
Inductive loop_pc : Type :=
| Idle                   (* [ts == nil]: the select of lines 107-116 *)
| Writing (t : nat)      (* the call of lines 120-124 for [ts] *)
| BackingOff (t : nat)   (* the select of lines 127-131 *)
| LoopReturned.

(** What the loop has done: the transactions taken from the edge, the writes
    tried with their results, oldest first, and whether it called
    [r.done()]. *)
Record loop_state : Type := mkLoop {
  loop_at : loop_pc;
  taken : list nat;
  attempts : list (nat * error);
  done_called : bool
}.

(** One select or write of the loop.  A select does not react to what it
    does not wait for. *)
Definition loop_step (st : loop_state) (r : ready) : loop_state :=
  match loop_at st, r with
  | Idle, Transaction t =>
      mkLoop (Writing t) (taken st ++ [t]) (attempts st) (done_called st)
  | Idle, EdgeClosed => mkLoop LoopReturned (taken st) (attempts st) true
  | Idle, CtxDone => mkLoop LoopReturned (taken st) (attempts st) (done_called st)
  | Writing t, Written None =>
      mkLoop Idle (taken st) (attempts st ++ [(t, None)]) (done_called st)
  | Writing t, Written (Some e) =>
      mkLoop (BackingOff t) (taken st) (attempts st ++ [(t, Some e)]) (done_called st)
  | BackingOff t, TimerFired =>
      mkLoop (Writing t) (taken st) (attempts st) (done_called st)
  | BackingOff t, CtxDone =>
      mkLoop LoopReturned (taken st) (attempts st) (done_called st)
  | _, _ => st
  end.

(** [r.loop()], lines 103-136, run on what its selects and writes come back
    with, in order. *)
Definition loop (script : list ready) : loop_state :=
  foldl loop_step (mkLoop Idle [] [] false) script.

End Resource.

(** ** The archive processor (archive.go) *)

Module archive.

Local Open Scope nat_scope.

(** [fakeInfo], lines 288-311; the modification time is [time.Now()] and is
    left to the archive writer. *)
Record fakeInfo : Type := mkFakeInfo {
  name : string;
  size : Z;
  mode : Z
}.

Definition headerFunc : Type := nat -> message.Part -> fakeInfo.

(** [archiveFunc]: a part, or the error. *)
Definition archiveFunc : Type := headerFunc -> message.Batch -> message.Part + err.

(** The writers of [archive/tar] and [archive/zip], as far as the processor
    drives them: a header is made from the file info and written (which for a
    zip opens the entry), the body follows, and the buffer is read back after
    [Close]. *)
Class ArchiveWriter (W H : Type) : Type := {
  NewWriter : W;
  FileInfoHeader : fakeInfo -> H + err;
  WriteHeader : W -> H -> W * error;
  Write : W -> list byte -> W * error;
  Close : W -> W;
  Bytes : W -> list byte
}.

(** The closure handed to [msg.Iter] by [tarArchive] and [zipArchive],
    applied from part [i] on: the first error ends the iteration. *)
Fixpoint write_parts {W H : Type} (aw : ArchiveWriter W H)
    (hFunc : headerFunc) (i : nat) (parts : message.Batch) (w : W)
  : W * error :=
  match parts with
  | [] => (w, None)
  | part :: rest =>
      match FileInfoHeader (hFunc i part) with
      | inr e => (w, Some e)
      | inl hdr =>
          match WriteHeader w hdr with
          | (w1, Some e) => (w1, Some e)
          | (w1, None) =>
              match Write w1 (message.Get part) with
              | (w2, Some e) => (w2, Some e)
              | (w2, None) => write_parts aw hFunc (S i) rest w2
              end
          end
      end
  end.

Section Archivers.

Context {TW TH ZW ZH : Type}.
Context (tarW : ArchiveWriter TW TH) (zipW : ArchiveWriter ZW ZH).

(** [tarArchive], lines 135-161. *)
Definition tarArchive : archiveFunc := fun hFunc msg =>
  let '(tw, e) := write_parts tarW hFunc 0 msg NewWriter in
  let tw := Close tw in
  match e with
  | Some e => inr e
  | None =>
      let newPart := message.Copy (message.BatchGet msg 0) in
      inl (message.Set_ newPart (Bytes tw))
  end.

(** [zipArchive], lines 163-192. *)
Definition zipArchive : archiveFunc := fun hFunc msg =>
  let '(zw, e) := write_parts zipW hFunc 0 msg NewWriter in
  let zw := Close zw in
  match e with
  | Some e => inr e
  | None =>
      let newPart := message.Copy (message.BatchGet msg 0) in
      inl (message.Set_ newPart (Bytes zw))
  end.

End Archivers.

(** [binaryArchive], lines 194-198. *)
Definition binaryArchive : archiveFunc := fun hFunc msg =>
  let newPart := message.Copy (message.BatchGet msg 0) in
  inl (message.Set_ newPart (message.ToBytes msg)).

(** [bytes.Join(parts, sep)]. *)
Fixpoint Join (parts : list (list byte)) (sep : list byte) : list byte :=
  match parts with
  | [] => []
  | [p] => p
  | p :: rest => p ++ sep ++ Join rest sep
  end.

(** [linesArchive], lines 200-209. *)
Definition linesArchive : archiveFunc := fun hFunc msg =>
  let tmpParts := map message.Get msg in
  let newPart := message.Copy (message.BatchGet msg 0) in
  inl (message.Set_ newPart (Join tmpParts [x0a])).

(** [concatenateArchive], lines 211-220. *)
Definition concatenateArchive : archiveFunc := fun hFunc msg =>
  let buf := concat (map message.Get msg) in
  let newPart := message.Copy (message.BatchGet msg 0) in
  inl (message.Set_ newPart buf).

(** The iteration of [jsonArrayArchive], lines 226-233. *)
Fixpoint json_docs (parts : message.Batch) (array : list JSON.value)
  : list JSON.value + err :=
  match parts with
  | [] => inl array
  | part :: rest =>
      match message.JSON part with
      | inr jerr => inr (ErrWrap "failed to parse message as JSON" jerr)
      | inl doc => json_docs rest (array ++ [doc])
      end
  end.

(** [jsonArrayArchive], lines 222-241. *)
Definition jsonArrayArchive : archiveFunc := fun hFunc msg =>
  match json_docs msg [] with
  | inr e => inr e
  | inl array =>
      let newPart := message.Copy (message.BatchGet msg 0) in
      inl (message.SetJSON newPart (JSON.Array array))
  end.

(** [strToArchiver], lines 243-259. *)
Definition strToArchiver {TW TH ZW ZH : Type}
    (tarW : ArchiveWriter TW TH) (zipW : ArchiveWriter ZW ZH) (str : string)
  : archiveFunc + err :=
  if String.eqb str "tar" then inl (tarArchive tarW)
  else if String.eqb str "zip" then inl (zipArchive zipW)
  else if String.eqb str "binary" then inl binaryArchive
  else if String.eqb str "lines" then inl linesArchive
  else if String.eqb str "json_array" then inl jsonArrayArchive
  else if String.eqb str "concatenate" then inl concatenateArchive
  else inr (ErrMsg ("archive format not recognised: " +:+ str)).

(** The struct [archive]; [path] is [d.path.String]. *)
Record archive : Type := mkArchive {
  archive_fn : archiveFunc;
  path : nat -> message.Batch -> string
}.

(** [createHeaderFunc], lines 313-321. *)
Definition createHeaderFunc (d : archive) (msg : message.Batch) : headerFunc :=
  fun index body =>
    mkFakeInfo (path d index msg)
               (Z.of_nat (length (message.Get body)))
               438%Z.

(** [ProcessBatch], lines 325-342: the batches returned, and the error.
    [newMsg] is the copy of [msg] whose parts [SetAll] replaces. *)
Definition ProcessBatch (d : archive) (msg : message.Batch)
  : list message.Batch * error :=
  if message.Len msg =? 0 then ([], None)
  else
    match archive_fn d (createHeaderFunc d msg) msg with
    | inr e => ([], Some e)
    | inl newPart =>
        let newPart := ibatch.WithCollapsedCount newPart (message.Len msg) in
        let newMsg := [newPart] in
        ([newMsg], None)
    end.

(** [newArchive], lines 269-284.  [new_field] is
    [mgr.BloblEnvironment().NewField]. *)
Definition newArchive {TW TH ZW ZH : Type}
    (tarW : ArchiveWriter TW TH) (zipW : ArchiveWriter ZW ZH)
    (new_field : string -> (nat -> message.Batch -> string) + err)
    (conf_Format conf_Path : string) : archive + err :=
  match new_field conf_Path with
  | inr e => inr (ErrWrap "failed to parse path expression" e)
  | inl path =>
      match strToArchiver tarW zipW conf_Format with
      | inr e => inr e
      | inl archiver => inl (mkArchive archiver path)
      end
  end.

End archive.

(** * Vocabulary of the properties *)

(** ** Fan-out acks *)

(** In the run [tr], every upstream ack that carries [e] comes after the ack
    of each of the [n] children. *)
Definition acked_after_all (n : nat) (tr : list FanOut.event) (e : error) : Prop :=
  forall t1 t2, tr = t1 ++ FanOut.UpstreamAck e :: t2 ->
    forall i, (i < n)%nat -> exists e', FanOut.ChildAck i e' ∈ t1.

(** In the run [tr], every upstream ack that carries the error [x] comes
    after the ack of a child with that error. *)
Definition error_from_child (tr : list FanOut.event) : Prop :=
  forall t1 t2 x, tr = t1 ++ FanOut.UpstreamAck (Some x) :: t2 ->
    exists i, FanOut.ChildAck i (Some x) ∈ t1.

(** The closures that no child has called yet. *)
Fixpoint pending_count (l : list FanOut.pc) : nat :=
  match l with
  | [] => O
  | FanOut.Pending :: r => S (pending_count r)
  | _ :: r => pending_count r
  end.

(** What every state reached from [FanOut.dispatch n _] satisfies. *)
Record fan_out_inv (n : nat) (s : FanOut.state) : Prop := mkInv {
  inv_length : length (FanOut.callbacks s) = n;
  inv_counter :
    FanOut.pendingResponses s <= 0 \/
    FanOut.pendingResponses s = Z.of_nat (pending_count (FanOut.callbacks s));
  inv_logged : forall i p, FanOut.callbacks s !! i = Some p ->
    p <> FanOut.Pending -> exists e, FanOut.ChildAck i e ∈ FanOut.trace s;
  inv_carried : forall i e,
    FanOut.callbacks s !! i = Some (FanOut.AtStore e) \/
    FanOut.callbacks s !! i = Some (FanOut.AtAck e) ->
    FanOut.ChildAck i e ∈ FanOut.trace s;
  inv_nil : forall i,
    FanOut.callbacks s !! i = Some (FanOut.AtStore None) \/
    FanOut.callbacks s !! i = Some (FanOut.AtAck None) ->
    pending_count (FanOut.callbacks s) = O;
  inv_after_all : acked_after_all n (FanOut.trace s) None;
  inv_from_child : error_from_child (FanOut.trace s)
}.

(** The closures that stand between the test of line 100 and the upstream
    ack of line 102. *)
Fixpoint acking_count (l : list FanOut.pc) : nat :=
  match l with
  | [] => O
  | FanOut.AtStore _ :: r | FanOut.AtAck _ :: r => S (acking_count r)
  | _ :: r => acking_count r
  end.

(** Some child has acked with an error in the run [tr]. *)
Definition any_failed (tr : list FanOut.event) : bool :=
  existsb (fun ev => match ev with
                     | FanOut.ChildAck _ (Some _) => true
                     | _ => false
                     end) tr.

(** What every state reached from [FanOut.dispatch n _] satisfies about the
    acks made: a closure called with an error is on its way to the upstream
    ack or has made it; and as long as no child has failed, the counter tells
    the calls still due and nobody acks upstream until the last child has
    called its closure, from when on one closure is on its way to the
    upstream ack or has made it. *)
Record ack_inv (n : nat) (s : FanOut.state) : Prop := mkAckInv {
  ack_length : length (FanOut.callbacks s) = n;
  ack_fresh : forall i e, FanOut.callbacks s !! i = Some FanOut.Pending ->
    FanOut.ChildAck i e ∉ FanOut.trace s;
  ack_failed : forall i x, FanOut.ChildAck i (Some x) ∈ FanOut.trace s ->
    FanOut.callbacks s !! i = Some (FanOut.AtStore (Some x)) \/
    FanOut.callbacks s !! i = Some (FanOut.AtAck (Some x)) \/
    FanOut.UpstreamAck (Some x) ∈ FanOut.trace s;
  ack_progress : any_failed (FanOut.trace s) = false ->
    ((0 < pending_count (FanOut.callbacks s))%nat /\
     FanOut.pendingResponses s = Z.of_nat (pending_count (FanOut.callbacks s)) /\
     acking_count (FanOut.callbacks s) = O /\
     FanOut.upstream_acks (FanOut.trace s) = []) \/
    (pending_count (FanOut.callbacks s) = O /\
     (acking_count (FanOut.callbacks s)
      + length (FanOut.upstream_acks (FanOut.trace s)))%nat = 1%nat)
}.

(** The closures run one after the other, child [i] first, with the errors
    [errs]. *)
Fixpoint in_turn (i : nat) (errs : list error) : FanOut.schedule :=
  match errs with
  | [] => []
  | e :: rest => FanOut.callback i e ++ in_turn (S i) rest
  end.

(** The upstream acks those closures make when the counter stands at [p]. *)
Fixpoint acks_in_turn (p : Z) (errs : list error) : list error :=
  match errs with
  | [] => []
  | e :: rest =>
      if (p - 1 =? 0) || negb (FanOut.is_nil e)
      then e :: acks_in_turn 0 rest
      else acks_in_turn (p - 1) rest
  end.

(** ** Consume *)

(** Successive calls of [Consume] on one fan-out broker, and what they
    return. *)
Fixpoint fan_out_consumes (o : FanOut.fanOutOutputBroker) (edges : list (option chan))
  : FanOut.fanOutOutputBroker * list error :=
  match edges with
  | [] => (o, [])
  | ts :: rest =>
      let '(o1, e) := FanOut.Consume o ts in
      let '(o2, es) := fan_out_consumes o1 rest in
      (o2, e :: es)
  end.

(** The same on one resource output. *)
Fixpoint resource_consumes {M : Type} (r : Resource.Resource M)
    (edges : list (option chan)) : Resource.Resource M * list error :=
  match edges with
  | [] => (r, [])
  | ts :: rest =>
      let '(r1, e) := Resource.Consume r ts in
      let '(r2, es) := resource_consumes r1 rest in
      (r2, e :: es)
  end.

(** ** Archives *)

(** All parts of the batch have payloads of one length. *)
Definition identically_sized (msg : message.Batch) : Prop :=
  forall p q, p ∈ msg -> q ∈ msg ->
    length (message.Get p) = length (message.Get q).

(** [unarchive] gives back the payloads of every non-empty batch of
    identically sized parts that [f] archives. *)
Definition round_trips (f : archive.archiveFunc)
    (unarchive : list byte -> option (list (list byte))) : Prop :=
  forall hFunc (msg : message.Batch), msg <> [] -> identically_sized msg ->
    exists part, f hFunc msg = inl part /\
      unarchive (message.Get part) = Some (map message.Get msg).

(** A writer that keeps entry names and bodies one after the other and
    never fails, to run the tar and zip archivers on. *)
Definition plain_writer : archive.ArchiveWriter (list byte) archive.fakeInfo := {|
  archive.NewWriter := [];
  archive.FileInfoHeader := fun fi => inl fi;
  archive.WriteHeader := fun w h =>
    (w ++ String.list_byte_of_string (archive.name h), None);
  archive.Write := fun w b => (w ++ b, None);
  archive.Close := fun w => w;
  archive.Bytes := fun w => w
|}.

(** The failures among the results of a pipeline: index to error. *)
Definition failed_at (cmders : list error) (i : nat) : option err :=
  mjoin (cmders !! i).

(** The part errors recorded so far. *)
Definition recorded (b : option ibatch.Error) : gmap nat err :=
  match b with
  | Some b => ibatch.partErrors b
  | None => ∅
  end.

(** ** The loops *)

(** The closures that stand between the upstream ack of line 102 and the
    decrement of line 103. *)
Fixpoint dec_count (l : list FanOut.pc) : nat :=
  match l with
  | [] => O
  | FanOut.AtDec :: r => S (dec_count r)
  | _ :: r => dec_count r
  end.



(** The transactions whose write came back with nil, oldest first. *)
Definition written (attempts : list (nat * error)) : list nat :=
  omap (fun a => match a.2 with None => Some a.1 | Some _ => None end) attempts.

(** What holds of the loop of the resource output at each of its places. *)
Definition resource_loop_inv (st : Resource.loop_state) : Prop :=
  match Resource.loop_at st with
  | Resource.Idle =>
      written (Resource.attempts st) = Resource.taken st /\
      Resource.done_called st = false
  | Resource.Writing t | Resource.BackingOff t =>
      Resource.taken st = written (Resource.attempts st) ++ [t] /\
      Resource.done_called st = false
  | Resource.LoopReturned =>
      written (Resource.attempts st) = Resource.taken st \/
      (exists t, Resource.taken st = written (Resource.attempts st) ++ [t]) /\
      Resource.done_called st = false
  end.

(** Every goroutine waiting at the time of the call is run, oldest first. *)
Definition run_all {T : Type} (w : spawned T) : spawned T :=
  Nat.iter (length (goroutines w)) run_next w.

(** Successive calls of [WriteWithContext] on one Redis list writer. *)
Fixpoint redis_writes (r : writer.RedisList) (msgs : list message.Batch)
  : writer.RedisList * list writer.write_error :=
  match msgs with
  | [] => (r, [])
  | msg :: rest =>
      let '(r1, e) := writer.WriteWithContext r msg in
      let '(r2, es) := redis_writes r1 rest in
      (r2, e :: es)
  end.

(** The string has no comma. *)
Fixpoint comma_free (s : string) : bool :=
  match s with
  | EmptyString => true
  | String c rest => negb (Ascii.eqb c ","%char) && comma_free rest
  end.

(** [strings.Join(us, ",")]. *)
Fixpoint join_comma (us : list string) : string :=
  match us with
  | [] => EmptyString
  | [u] => u
  | u :: rest => u +:+ String ","%char (join_comma rest)
  end.

(** The payload has no line break. *)
Definition line_free (b : list byte) : Prop := x0a ∉ b.

(** A URL that the loop of [NewMQTTV2] keeps as it is: not empty and without
    a comma. *)
Definition clean_url (u : string) : Prop :=
  u <> EmptyString /\ comma_free u = true.

(** The expression of a configured hash field, if its text parses. *)
Definition parsed_field (new_field : string -> writer.Expression + err)
    (v : string) : option writer.Expression :=
  match new_field v with
  | inl x => Some x
  | inr _ => None
  end.

(** The formats that [strToArchiver] knows. *)
Definition formats : list string :=
  ["tar"; "zip"; "binary"; "lines"; "json_array"; "concatenate"]%string.

(** The lengths of the payloads of a batch, added up. *)
Definition total_size (msg : message.Batch) : nat :=
  foldr (fun p n => (length (message.Get p) + n)%nat) O msg.

(** A writer like [plain_writer] that refuses an entry without content, to
    run the tar and zip archivers into an error. *)
Definition strict_writer : archive.ArchiveWriter (list byte) archive.fakeInfo := {|
  archive.NewWriter := [];
  archive.FileInfoHeader := fun fi =>
    if (archive.size fi =? 0)%Z then inr (ErrMsg "empty entry") else inl fi;
  archive.WriteHeader := fun w h =>
    (w ++ String.list_byte_of_string (archive.name h), None);
  archive.Write := fun w b => (w ++ b, None);
  archive.Close := fun w => w;
  archive.Bytes := fun w => w
|}.

(** ** Reading archives back *)

(** The bodies of the entries that were written without error to an archive
    writer since it was made, each under a header made from a file info of
    the body's size, as [createHeaderFunc] makes them. *)
Inductive entries_written {W H : Type} (aw : archive.ArchiveWriter W H)
  : W -> list (list byte) -> Prop :=
| entries_none : entries_written aw (@archive.NewWriter _ _ aw) []
| entries_more (w w1 w2 : W) (fi : archive.fakeInfo) (hdr : H) (b : list byte)
      (l : list (list byte)) :
    entries_written aw w l ->
    archive.size fi = Z.of_nat (length b) ->
    archive.FileInfoHeader fi = inl hdr ->
    archive.WriteHeader w hdr = (w1, None) ->
    archive.Write w1 b = (w2, None) ->
    entries_written aw w2 (l ++ [b]).

(** Modelled from the spec: the unarchiver of the tar and zip formats, which
    like their writers is outside the sources, is taken as any [reader] that
    yields from the bytes of a closed archive the bodies of its entries, in
    the order they were written: "unarchive_F(archive_F(B)) = B". *)
Definition reads_back {W H : Type} (aw : archive.ArchiveWriter W H)
    (reader : list byte -> option (list (list byte))) : Prop :=
  forall w l, entries_written aw w l ->
    reader (archive.Bytes (archive.Close w)) = Some l.

(** An entry of the framed archive: as many bytes 1 as the body is long, a
    byte 0, and the body. *)
Definition frame (b : list byte) : list byte :=
  replicate (length b) x01 ++ x00 :: b.

(** A writer of framed archives, which never fails, and its reader, to run
    the tar and zip archivers and read their archives back. *)
Definition framed_writer : archive.ArchiveWriter (list byte) archive.fakeInfo := {|
  archive.NewWriter := [];
  archive.FileInfoHeader := fun fi => inl fi;
  archive.WriteHeader := fun w h =>
    (w ++ replicate (Z.to_nat (archive.size h)) x01 ++ [x00], None);
  archive.Write := fun w b => (w ++ b, None);
  archive.Close := fun w => w;
  archive.Bytes := fun w => w
|}.

Fixpoint read_unary (b : list byte) (n : nat) : option (nat * list byte) :=
  match b with
  | [] => None
  | c :: rest =>
      if decide (c = x00) then Some (n, rest)
      else if decide (c = x01) then read_unary rest (S n)
      else None
  end.

Fixpoint read_frames (fuel : nat) (b : list byte) : option (list (list byte)) :=
  match b with
  | [] => Some []
  | _ :: _ =>
      match fuel with
      | O => None
      | S k =>
          match read_unary b 0 with
          | None => None
          | Some (n, rest) =>
              if (length rest <? n)%nat then None
              else match read_frames k (drop n rest) with
                   | Some l => Some (take n rest :: l)
                   | None => None
                   end
          end
      end
  end.

Definition framed_reader (b : list byte) : option (list (list byte)) :=
  read_frames (length b) b.

(** The number 2^32, one more than four bytes count to. *)
Definition two32 : nat := Z.to_nat (2 ^ 32).

(** A batch of 2^32 empty parts, and a batch of one part of 2^32 bytes. *)
Definition many_parts : message.Batch := replicate two32 (message.NewPart []).

Definition long_part : message.Batch := [message.NewPart (replicate two32 x00)].

(** * Properties *)

(** ** Fan-out: the closures of one transaction *)

Section FanOutAcks.

Import FanOut.

Lemma exec_app (s1 s2 : schedule) (s : state) :
  exec (s1 ++ s2) s = exec s2 (exec s1 s).
Proof. unfold exec. apply foldl_app. Qed.

Lemma pending_count_fire (l : list pc) (i : nat) (q : pc) :
  l !! i = Some Pending -> q <> Pending ->
  S (pending_count (<[i := q]> l)) = pending_count l.
Proof.
  revert i. induction l as [|p l IH]; intros [|i] Hi Hq; simpl in *; try done.
  - inversion Hi; subst. destruct q; congruence.
  - destruct p; simpl; rewrite <- (IH i Hi Hq); reflexivity.
Qed.

Lemma pending_count_move (l : list pc) (i : nat) (p q : pc) :
  l !! i = Some p -> p <> Pending -> q <> Pending ->
  pending_count (<[i := q]> l) = pending_count l.
Proof.
  revert i. induction l as [|p' l IH]; intros [|i] Hi Hp Hq; simpl in *; try done.
  - inversion Hi; subst. destruct p, q; congruence.
  - destruct p'; simpl; rewrite (IH i Hi Hp Hq); reflexivity.
Qed.

Lemma pending_count_zero (l : list pc) (i : nat) (p : pc) :
  pending_count l = O -> l !! i = Some p -> p <> Pending.
Proof.
  revert i. induction l as [|p' l IH]; intros [|i] Hc Hi; simpl in *; try done.
  - inversion Hi; subst. destruct p; congruence.
  - destruct p'; try discriminate; eauto.
Qed.

Lemma pending_count_replicate (n : nat) :
  pending_count (replicate n Pending) = n.
Proof. induction n; simpl; congruence. Qed.

(** A run that grew by one event splits at an upstream ack either inside the
    old run or at the new event. *)
Lemma snoc_split (tr t1 t2 : list event) (x y : event) :
  tr ++ [x] = t1 ++ y :: t2 ->
  (t2 = [] /\ x = y /\ tr = t1) \/
  (exists t2', t2 = t2' ++ [x] /\ tr = t1 ++ y :: t2').
Proof.
  intros H. destruct (decide (t2 = [])) as [->|Hne].
  - left. apply app_inj_tail in H as [-> ->]. done.
  - right. destruct (exists_last Hne) as (t2' & z & ->).
    change (t1 ++ y :: t2' ++ [z]) with (t1 ++ (y :: t2') ++ [z]) in H.
    rewrite app_assoc in H. apply app_inj_tail in H as [-> ->]. eauto.
Qed.

Lemma acked_after_all_child (n : nat) (tr : list event) (e : error) (i : nat) (e' : error) :
  acked_after_all n tr e -> acked_after_all n (tr ++ [ChildAck i e']) e.
Proof.
  intros H t1 t2 Heq j Hj.
  apply snoc_split in Heq as [(_ & Hx & _)|(t2' & _ & Heq)]; [discriminate|].
  eapply H; eauto.
Qed.

Lemma error_from_child_child (tr : list event) (i : nat) (e' : error) :
  error_from_child tr -> error_from_child (tr ++ [ChildAck i e']).
Proof.
  intros H t1 t2 x Heq.
  apply snoc_split in Heq as [(_ & Hx & _)|(t2' & _ & Heq)]; [discriminate|].
  eapply H; eauto.
Qed.

Lemma fan_out_inv_dispatch (n : nat) (a : Z) : fan_out_inv n (dispatch n a).
Proof.
  split; simpl.
  - apply length_replicate.
  - right. by rewrite pending_count_replicate.
  - intros i p Hi Hp. apply lookup_replicate in Hi as [-> _]. done.
  - intros i e [Hi|Hi]; apply lookup_replicate in Hi as [? _]; done.
  - intros i [Hi|Hi]; apply lookup_replicate in Hi as [? _]; done.
  - intros t1 t2 Heq. by destruct t1.
  - intros t1 t2 x Heq. by destruct t1.
Qed.

Lemma fan_out_inv_step (n : nat) (i : nat) (e : error) (s : state) :
  fan_out_inv n s -> fan_out_inv n (step i e s).
Proof.
  intros [Hlen Hcnt Hlog Hcar Hnil Hall Hfrom]. unfold step.
  destruct (callbacks s !! i) as [p|] eqn:Hi; [|by split].
  assert (Hlt : (i < length (callbacks s))%nat) by (eapply lookup_lt_Some; eauto).
  destruct p as [|e0|e0| |].
  - (* the child calls the closure *)
    set (next := if (pendingResponses s - 1 =? 0) || negb (is_nil e)
                 then AtStore e else Returned).
    assert (Hnext : next <> Pending) by (subst next; case_match; done).
    pose proof (pending_count_fire _ _ next Hi Hnext) as Hpc.
    split; simpl.
    + by rewrite length_insert.
    + destruct Hcnt as [Hle|Heq]; [left; lia|right; lia].
    + intros j p Hj Hp. destruct (decide (i = j)) as [->|Hne].
      * exists e. apply elem_of_app. right. by apply list_elem_of_singleton.
      * rewrite list_lookup_insert_ne in Hj by done.
        destruct (Hlog j p Hj Hp) as [e' He']. exists e'.
        apply elem_of_app. by left.
    + intros j e' Hj. destruct (decide (i = j)) as [->|Hne].
      * rewrite list_lookup_insert_eq in Hj by done.
        assert (e' = e) as ->.
        { subst next. destruct Hj as [Hj|Hj]; case_match; congruence. }
        apply elem_of_app. right. by apply list_elem_of_singleton.
      * rewrite list_lookup_insert_ne in Hj by done.
        apply elem_of_app. left. by apply Hcar.
    + intros j Hj. destruct (decide (i = j)) as [->|Hne].
      * rewrite list_lookup_insert_eq in Hj by done.
        assert (pendingResponses s - 1 = 0 /\ next = AtStore e /\ e = None)
          as (Hz & _ & _).
        { subst next. destruct Hj as [Hj|Hj]; destruct e; simpl in *;
            destruct (pendingResponses s - 1 =? 0) eqn:Hp; simpl in *;
            try congruence; apply Z.eqb_eq in Hp; done. }
        destruct Hcnt as [Hle|Heq]; lia.
      * rewrite list_lookup_insert_ne in Hj by done.
        pose proof (pending_count_zero _ _ _ (Hnil j Hj) Hi). done.
    + by apply acked_after_all_child.
    + by apply error_from_child_child.
  - (* line 101: the counter is reset *)
    split; simpl.
    + by rewrite length_insert.
    + left. lia.
    + intros j p Hj Hp. destruct (decide (i = j)) as [->|Hne].
      * eapply Hlog; eauto; done.
      * rewrite list_lookup_insert_ne in Hj by done. eauto.
    + intros j e' Hj. destruct (decide (i = j)) as [->|Hne].
      * rewrite list_lookup_insert_eq in Hj by done.
        destruct Hj as [Hj|Hj]; [done|]. inversion Hj; subst. apply Hcar. eauto.
      * rewrite list_lookup_insert_ne in Hj by done. by apply Hcar.
    + intros j Hj.
      rewrite (pending_count_move _ _ (AtStore e0)) by done.
      destruct (decide (i = j)) as [->|Hne].
      * rewrite list_lookup_insert_eq in Hj by done.
        destruct Hj as [Hj|Hj]; [done|]. inversion Hj; subst. eapply Hnil; eauto.
      * rewrite list_lookup_insert_ne in Hj by done. eauto.
    + done.
    + done.
  - (* line 102: the upstream ack *)
    split; simpl.
    + by rewrite length_insert.
    + rewrite (pending_count_move _ _ (AtAck e0)) by done. done.
    + intros j p Hj Hp.
      assert (exists e', ChildAck j e' ∈ trace s) as [e' He'].
      { destruct (decide (i = j)) as [->|Hne].
        - eapply Hlog; eauto; done.
        - rewrite list_lookup_insert_ne in Hj by done. eauto. }
      exists e'. apply elem_of_app. by left.
    + intros j e' Hj. apply elem_of_app. left.
      destruct (decide (i = j)) as [->|Hne].
      * rewrite list_lookup_insert_eq in Hj by done. destruct Hj; done.
      * rewrite list_lookup_insert_ne in Hj by done. by apply Hcar.
    + intros j Hj.
      rewrite (pending_count_move _ _ (AtAck e0)) by done.
      destruct (decide (i = j)) as [->|Hne].
      * rewrite list_lookup_insert_eq in Hj by done. destruct Hj; done.
      * rewrite list_lookup_insert_ne in Hj by done. eauto.
    + intros t1 t2 Heq j Hj.
      apply snoc_split in Heq as [(_ & Hx & <-)|(t2' & _ & Heq)].
      * inversion Hx; subst.
        assert (pending_count (callbacks s) = O) as Hz by (eapply Hnil; eauto).
        destruct (lookup_lt_is_Some_2 (callbacks s) j) as [p Hp]; [lia|].
        eapply Hlog; eauto. eapply pending_count_zero; eauto.
      * eapply Hall; eauto.
    + intros t1 t2 x Heq.
      apply snoc_split in Heq as [(_ & Hx & <-)|(t2' & _ & Heq)].
      * inversion Hx; subst. exists i. apply Hcar. eauto.
      * eapply Hfrom; eauto.
  - (* line 103 *)
    split; simpl.
    + by rewrite length_insert.
    + rewrite (pending_count_move _ _ AtDec) by done. done.
    + intros j p Hj Hp. destruct (decide (i = j)) as [->|Hne].
      * eapply Hlog; eauto; done.
      * rewrite list_lookup_insert_ne in Hj by done. eauto.
    + intros j e' Hj. destruct (decide (i = j)) as [->|Hne].
      * rewrite list_lookup_insert_eq in Hj by done. destruct Hj; done.
      * rewrite list_lookup_insert_ne in Hj by done. by apply Hcar.
    + intros j Hj.
      rewrite (pending_count_move _ _ AtDec) by done.
      destruct (decide (i = j)) as [->|Hne].
      * rewrite list_lookup_insert_eq in Hj by done. destruct Hj; done.
      * rewrite list_lookup_insert_ne in Hj by done. eauto.
    + done.
    + done.
  - by split.
Qed.

Lemma fan_out_inv_exec (n : nat) (sched : schedule) (s : state) :
  fan_out_inv n s -> fan_out_inv n (exec sched s).
Proof.
  revert s. induction sched as [|[i e] sched IH]; intros s Hs; [done|].
  simpl. apply IH. by apply fan_out_inv_step.
Qed.

Lemma step_store (i : nat) (e e' : error) (s : state) :
  callbacks s !! i = Some (AtStore e') ->
  step i e s = mkState 0 (ackPending s) (<[i := AtAck e']> (callbacks s)) (trace s).
Proof. intros H. unfold step. by rewrite H. Qed.

Lemma step_ack (i : nat) (e e' : error) (s : state) :
  callbacks s !! i = Some (AtAck e') ->
  step i e s = mkState (pendingResponses s) (ackPending s)
                       (<[i := AtDec]> (callbacks s)) (trace s ++ [UpstreamAck e']).
Proof. intros H. unfold step. by rewrite H. Qed.

Lemma step_dec (i : nat) (e : error) (s : state) :
  callbacks s !! i = Some AtDec ->
  step i e s = mkState (pendingResponses s) (ackPending s - 1)
                       (<[i := Returned]> (callbacks s)) (trace s).
Proof. intros H. unfold step. by rewrite H. Qed.

Lemma step_returned (i : nat) (e : error) (s : state) :
  callbacks s !! i = Some Returned -> step i e s = s.
Proof. intros H. unfold step. by rewrite H. Qed.

(** Rewrites the step taken from a state that is written out. *)
Ltac inner_step tac :=
  match goal with
  | |- context [step _ _ (mkState ?p ?a ?c ?t)] => tac (mkState p a c t)
  end.

(** The closure of child [i] run without interruption. *)
Lemma exec_callback (i : nat) (e : error) (s : state) :
  callbacks s !! i = Some Pending ->
  exec (callback i e) s =
    if (pendingResponses s - 1 =? 0) || negb (is_nil e) then
      mkState 0 (ackPending s - 1) (<[i := Returned]> (callbacks s))
              (trace s ++ [ChildAck i e; UpstreamAck e])
    else
      mkState (pendingResponses s - 1) (ackPending s)
              (<[i := Returned]> (callbacks s)) (trace s ++ [ChildAck i e]).
Proof.
  intros Hi.
  assert (Hlt : (i < length (callbacks s))%nat) by (eapply lookup_lt_Some; eauto).
  unfold callback, exec. cbn [foldl fst snd].
  assert (Hfire : step i e s =
    mkState (pendingResponses s - 1) (ackPending s)
      (<[i := if (pendingResponses s - 1 =? 0) || negb (is_nil e)
              then AtStore e else Returned]> (callbacks s))
      (trace s ++ [ChildAck i e])).
  { unfold step. by rewrite Hi. }
  rewrite Hfire. clear Hfire.
  destruct ((pendingResponses s - 1 =? 0) || negb (is_nil e)).
  - inner_step ltac:(fun s0 => rewrite (step_store i e e s0)
        by (simpl; by apply list_lookup_insert_eq)).
    inner_step ltac:(fun s0 => rewrite (step_ack i e e s0)
        by (simpl; apply list_lookup_insert_eq; by rewrite length_insert)).
    inner_step ltac:(fun s0 => rewrite (step_dec i e s0)
        by (simpl; apply list_lookup_insert_eq; by rewrite !length_insert)).
    simpl. rewrite !list_insert_insert_eq, <- app_assoc. reflexivity.
  - do 3 inner_step ltac:(fun s0 => rewrite (step_returned i e s0)
        by (simpl; by apply list_lookup_insert_eq)).
    reflexivity.
Qed.

Lemma upstream_acks_in_turn (errs : list error) (i : nat) (s : state) :
  (forall j, (j < length errs)%nat -> callbacks s !! (i + j)%nat = Some Pending) ->
  upstream_acks (trace (exec (in_turn i errs) s)) =
    upstream_acks (trace s) ++ acks_in_turn (pendingResponses s) errs.
Proof.
  revert i s. induction errs as [|e errs IH]; intros i s Hpend.
  - simpl. by rewrite app_nil_r.
  - cbn [in_turn acks_in_turn]. rewrite exec_app.
    assert (Hi : callbacks s !! i = Some Pending).
    { specialize (Hpend O). rewrite Nat.add_0_r in Hpend. apply Hpend. simpl. lia. }
    rewrite (exec_callback i e s Hi).
    assert (Hrest : forall j, (j < length errs)%nat ->
              <[i := Returned]> (callbacks s) !! (S i + j)%nat = Some Pending).
    { intros j Hj. rewrite list_lookup_insert_ne by lia.
      replace (S i + j)%nat with (i + S j)%nat by lia. apply Hpend. simpl. lia. }
    destruct ((pendingResponses s - 1 =? 0) || negb (is_nil e)).
    + rewrite IH by done. simpl. unfold upstream_acks.
      rewrite omap_app. simpl. by rewrite <- app_assoc.
    + rewrite IH by done. simpl. unfold upstream_acks.
      rewrite omap_app. simpl. by rewrite app_nil_r.
Qed.

Lemma acks_in_turn_reset (errs : list error) (p : Z) :
  p <= 0 -> acks_in_turn p errs = filter is_Some errs.
Proof.
  revert p. induction errs as [|e errs IH]; intros p Hp; simpl; [done|].
  destruct (p - 1 =? 0) eqn:Hz; [apply Z.eqb_eq in Hz; lia|].
  destruct e as [x|]; simpl.
  - rewrite filter_cons_True by eauto. by rewrite IH.
  - rewrite filter_cons_False by (intros [? ?]; done). apply IH. lia.
Qed.

Lemma acks_in_turn_all (errs : list error) :
  errs <> [] ->
  acks_in_turn (Z.of_nat (length errs)) errs =
    if forallb is_nil errs then [None] else filter is_Some errs.
Proof.
  induction errs as [|e errs IH]; intros Hne; [done|].
  cbn [acks_in_turn length forallb].
  destruct errs as [|e' errs].
  - simpl. destruct e as [x|]; simpl; [|done].
    by rewrite filter_cons_True by eauto.
  - replace (Z.of_nat (S (length (e' :: errs))) - 1)
      with (Z.of_nat (length (e' :: errs))) by lia.
    destruct (Z.of_nat (length (e' :: errs)) =? 0) eqn:Hz;
      [apply Z.eqb_eq in Hz; simpl in Hz; lia|].
    destruct e as [x|]; cbn [is_nil negb orb andb].
    + rewrite filter_cons_True by eauto. by rewrite acks_in_turn_reset.
    + rewrite filter_cons_False by (intros [? ?]; done). by apply IH.
Qed.

(** When the children ack one after the other, each closure returning before
    the next is called, the upstream ack is called once with nil if every
    child acked nil, and otherwise once per failed child, with that child's
    error, in the order of the children's acks. *)
Lemma fan_out_in_turn (errs : list error) (a : Z) :
  errs <> [] ->
  upstream_acks (trace (exec (in_turn 0 errs) (dispatch (length errs) a))) =
    if forallb is_nil errs then [None] else filter is_Some errs.
Proof.
  intros Hne. rewrite upstream_acks_in_turn.
  - simpl. by apply acks_in_turn_all.
  - intros j Hj. simpl. by apply lookup_replicate_2.
Qed.

Lemma acking_count_insert (l : list pc) (i : nat) (p q : pc) :
  l !! i = Some p ->
  (acking_count (<[i := q]> l) + acking_count [p])%nat
  = (acking_count l + acking_count [q])%nat.
Proof.
  revert i. induction l as [|p' l IH]; intros [|i] Hi; simpl in *; try done.
  - inversion Hi; subst. destruct p, q; simpl; lia.
  - specialize (IH i Hi). destruct p'; simpl in *; lia.
Qed.

Lemma pending_count_insert (l : list pc) (i : nat) (p q : pc) :
  l !! i = Some p ->
  (pending_count (<[i := q]> l) + pending_count [p])%nat
  = (pending_count l + pending_count [q])%nat.
Proof.
  revert i. induction l as [|p' l IH]; intros [|i] Hi; simpl in *; try done.
  - inversion Hi; subst. destruct p, q; simpl; lia.
  - specialize (IH i Hi). destruct p'; simpl in *; lia.
Qed.

Lemma counts_all_returned (l : list pc) :
  Forall (fun p => p = Returned) l -> pending_count l = O /\ acking_count l = O.
Proof. induction 1 as [|p l -> _ [IH1 IH2]]; simpl; auto. Qed.

Lemma any_failed_app (t1 t2 : list event) :
  any_failed (t1 ++ t2) = any_failed t1 || any_failed t2.
Proof. unfold any_failed. apply existsb_app. Qed.

Lemma any_failed_true (tr : list event) :
  any_failed tr = true -> exists i x, ChildAck i (Some x) ∈ tr.
Proof.
  induction tr as [|ev tr IH]; simpl; [done|].
  destruct ev as [i [x|]|e]; simpl.
  - intros _. exists i, x. apply elem_of_cons. by left.
  - intros H. destruct (IH H) as (j & y & Hj). exists j, y.
    apply elem_of_cons. by right.
  - intros H. destruct (IH H) as (j & y & Hj). exists j, y.
    apply elem_of_cons. by right.
Qed.

Lemma any_failed_false (tr : list event) (i : nat) (x : err) :
  any_failed tr = false -> ChildAck i (Some x) ∉ tr.
Proof.
  induction tr as [|ev tr IH]; simpl; intros H Hin.
  - by apply elem_of_nil in Hin.
  - apply orb_false_iff in H as [Hev Htr].
    apply elem_of_cons in Hin as [<-|Hin]; [done|]. by apply IH.
Qed.

Lemma upstream_acks_snoc_child (tr : list event) (i : nat) (e : error) :
  upstream_acks (tr ++ [ChildAck i e]) = upstream_acks tr.
Proof. unfold upstream_acks. rewrite omap_app. simpl. by rewrite app_nil_r. Qed.

Lemma upstream_acks_snoc_upstream (tr : list event) (e : error) :
  upstream_acks (tr ++ [UpstreamAck e]) = upstream_acks tr ++ [e].
Proof. unfold upstream_acks. by rewrite omap_app. Qed.

Lemma elem_of_upstream_acks (tr : list event) (e : error) :
  e ∈ upstream_acks tr <-> UpstreamAck e ∈ tr.
Proof.
  unfold upstream_acks. rewrite list_elem_of_omap. split.
  - intros (ev & Hev & Heq). destruct ev; inversion Heq; by subst.
  - intros H. by exists (UpstreamAck e).
Qed.

Lemma ack_inv_dispatch (n : nat) (a : Z) : (0 < n)%nat -> ack_inv n (dispatch n a).
Proof.
  intros Hn. split; simpl.
  - apply length_replicate.
  - intros i e _ Hin. by apply elem_of_nil in Hin.
  - intros i x Hin. by apply elem_of_nil in Hin.
  - intros _. left. rewrite pending_count_replicate. repeat split; [done|].
    clear Hn. induction n; simpl; congruence.
Qed.

Lemma ack_inv_step (n : nat) (i : nat) (e : error) (s : state) :
  ack_inv n s -> ack_inv n (step i e s).
Proof.
  intros [Hlen Hfresh Hfail Hprog]. unfold step.
  destruct (callbacks s !! i) as [p|] eqn:Hi; [|by split].
  assert (Hlt : (i < length (callbacks s))%nat) by (eapply lookup_lt_Some; eauto).
  pose proof (fun q => pending_count_insert _ _ _ q Hi) as Hpc.
  pose proof (fun q => acking_count_insert _ _ _ q Hi) as Hac.
  pose proof (Hac Returned) as Hin. simpl in Hin.
  assert (Hfresh' : forall q (t : list event), q <> Pending ->
            (forall j e', j <> i -> ChildAck j e' ∈ t -> ChildAck j e' ∈ trace s) ->
            forall j e', <[i := q]> (callbacks s) !! j = Some Pending ->
                         ChildAck j e' ∉ t).
  { intros q t Hq Ht j e' Hj Hin'. destruct (decide (i = j)) as [->|Hne].
    - rewrite list_lookup_insert_eq in Hj by done. congruence.
    - rewrite list_lookup_insert_ne in Hj by done.
      eapply Hfresh; eauto. }
  destruct p as [|e0|e0| |]; [..|by split].
  - (* the child calls the closure *)
    set (next := if (pendingResponses s - 1 =? 0) || negb (is_nil e)
                 then AtStore e else Returned).
    assert (Hnext : next <> Pending) by (subst next; case_match; done).
    split; simpl.
    + by rewrite length_insert.
    + apply Hfresh'; [done|]. intros j e' Hne Hj.
      apply elem_of_app in Hj as [Hj|Hj]; [done|].
      apply list_elem_of_singleton in Hj. congruence.
    + intros j x Hj. apply elem_of_app in Hj as [Hj|Hj].
      * assert (Hne : i <> j).
        { intros ->. by eapply Hfresh. }
        rewrite list_lookup_insert_ne by done.
        destruct (Hfail j x Hj) as [H|[H|H]]; auto.
        right. right. apply elem_of_app. by left.
      * apply list_elem_of_singleton in Hj. inversion Hj; subst.
        left. rewrite list_lookup_insert_eq by done. subst next.
        simpl. by rewrite orb_true_r.
    + rewrite any_failed_app, upstream_acks_snoc_child. intros Hnone.
      apply orb_false_iff in Hnone as [Hnone He].
      assert (e = None) as -> by (destruct e; simpl in He; congruence).
      subst next. simpl in *. rewrite orb_false_r in *.
      destruct (Hprog Hnone) as [(Hpos & Hcnt & Hack & Hup)|(Hzero & _)];
        [|specialize (Hpc Returned); simpl in Hpc; lia].
      destruct (pendingResponses s - 1 =? 0) eqn:Hz.
      * apply Z.eqb_eq in Hz. specialize (Hpc (AtStore None)).
        specialize (Hac (AtStore None)). simpl in Hpc, Hac.
        right. rewrite Hup. simpl. lia.
      * apply Z.eqb_neq in Hz. specialize (Hpc Returned).
        specialize (Hac Returned). simpl in Hpc, Hac.
        left. repeat split; try done; lia.
  - (* line 101 *)
    specialize (Hpc (AtAck e0)). specialize (Hac (AtAck e0)). simpl in Hpc, Hac.
    split; simpl.
    + by rewrite length_insert.
    + apply Hfresh'; done.
    + intros j x Hj. destruct (decide (i = j)) as [->|Hne].
      * rewrite list_lookup_insert_eq by done.
        destruct (Hfail j x Hj) as [H|[H|H]]; [|congruence|auto].
        right. left. congruence.
      * rewrite list_lookup_insert_ne by done. auto.
    + intros Hnone.
      destruct (Hprog Hnone) as [(_ & _ & Hack & _)|(Hzero & Hone)]; [lia|].
      right. split; lia.
  - (* line 102 *)
    specialize (Hpc AtDec). specialize (Hac AtDec). simpl in Hpc, Hac.
    split; simpl.
    + by rewrite length_insert.
    + apply Hfresh'; [done|]. intros j e' Hne Hj.
      apply elem_of_app in Hj as [Hj|Hj]; [done|].
      apply list_elem_of_singleton in Hj. congruence.
    + intros j x Hj. apply elem_of_app in Hj as [Hj|Hj];
        [|apply list_elem_of_singleton in Hj; congruence].
      destruct (decide (i = j)) as [->|Hne].
      * right. right. apply elem_of_app.
        destruct (Hfail j x Hj) as [H|[H|H]]; [congruence| |by left].
        right. apply list_elem_of_singleton. congruence.
      * rewrite list_lookup_insert_ne by done.
        destruct (Hfail j x Hj) as [H|[H|H]]; auto.
        right. right. apply elem_of_app. by left.
    + rewrite any_failed_app, upstream_acks_snoc_upstream, length_app. simpl.
      rewrite orb_false_r. intros Hnone.
      destruct (Hprog Hnone) as [(_ & _ & Hack & _)|(Hzero & Hone)]; [lia|].
      right. split; lia.
  - (* line 103 *)
    specialize (Hpc Returned). specialize (Hac Returned). simpl in Hpc, Hac.
    split; simpl.
    + by rewrite length_insert.
    + apply Hfresh'; done.
    + intros j x Hj. destruct (decide (i = j)) as [->|Hne].
      * destruct (Hfail j x Hj) as [H|[H|H]]; [congruence|congruence|auto].
      * rewrite list_lookup_insert_ne by done. auto.
    + intros Hnone.
      destruct (Hprog Hnone) as [(Hpos & Hcnt & Hack & Hup)|(Hzero & Hone)];
        [left; repeat split; try done; lia|right; split; lia].
Qed.

Lemma ack_inv_exec (n : nat) (sched : schedule) (s : state) :
  ack_inv n s -> ack_inv n (exec sched s).
Proof.
  revert s. induction sched as [|[i e] sched IH]; intros s Hs; [done|].
  simpl. apply IH. by apply ack_inv_step.
Qed.

(** Once all closures have returned, in every interleaving: the upstream has
    been acked at least once; the error of every child that failed has been
    passed upstream; and if no child failed the upstream has been acked
    exactly once, with nil. *)
Lemma fan_out_acks_when_returned (n : nat) (a : Z) (sched : schedule) :
  (0 < n)%nat ->
  let s := exec sched (dispatch n a) in
  Forall (fun p => p = Returned) (callbacks s) ->
  upstream_acks (trace s) <> [] /\
  (forall i x, (i, Some x) ∈ child_acks (trace s) ->
     Some x ∈ upstream_acks (trace s)) /\
  (Forall (fun c => c.2 = None) (child_acks (trace s)) ->
     upstream_acks (trace s) = [None]).
Proof.
  intros Hn s Hret. subst s.
  destruct (ack_inv_exec n sched _ (ack_inv_dispatch n a Hn))
    as [Hlen Hfresh Hfail Hprog].
  pose proof (fan_out_inv_exec n sched _ (fan_out_inv_dispatch n a)) as Hinv.
  set (s := exec sched (dispatch n a)) in *. clearbody s.
  destruct (counts_all_returned _ Hret) as [Hp Hk].
  assert (Hpassed : forall i x, ChildAck i (Some x) ∈ trace s ->
            Some x ∈ upstream_acks (trace s)).
  { intros i x Hin. apply elem_of_upstream_acks.
    destruct (Hfail i x Hin) as [H|[H|H]]; [..|done];
      apply list_elem_of_lookup_2 in H;
      eapply Forall_forall in H; eauto; done. }
  assert (Hone : any_failed (trace s) = false -> upstream_acks (trace s) = [None]).
  { intros Hnone.
    destruct (Hprog Hnone) as [(Hpos & _)|(_ & Hone)]; [lia|].
    rewrite Hk in Hone. simpl in Hone.
    destruct (upstream_acks (trace s)) as [|e [|e' l]] eqn:Hup; simpl in Hone;
      try lia.
    destruct e as [x|]; [|done].
    assert (Hx : UpstreamAck (Some x) ∈ trace s).
    { apply elem_of_upstream_acks. rewrite Hup. apply elem_of_cons. by left. }
    apply list_elem_of_split in Hx as (t1 & t2 & Ht).
    destruct (inv_from_child _ _ Hinv t1 t2 x Ht) as [i Hi].
    exfalso. eapply (any_failed_false (trace s) i x Hnone).
    rewrite Ht. apply elem_of_app. by left. }
  split; [|split].
  - destruct (any_failed (trace s)) eqn:Hany.
    + apply any_failed_true in Hany as (i & x & Hin).
      intros Hnil. specialize (Hpassed i x Hin). rewrite Hnil in Hpassed.
      by apply elem_of_nil in Hpassed.
    + rewrite Hone by done. done.
  - intros i x Hin. apply (Hpassed i).
    unfold child_acks in Hin. apply list_elem_of_omap in Hin as (ev & Hev & Heq).
    destruct ev; inversion Heq; by subst.
  - intros Hall. apply Hone.
    destruct (any_failed (trace s)) eqn:Hany; [|done].
    apply any_failed_true in Hany as (i & x & Hin).
    assert (Hc : (i, Some x) ∈ child_acks (trace s)).
    { unfold child_acks. apply list_elem_of_omap. by exists (ChildAck i (Some x)). }
    eapply Forall_forall in Hall; eauto. done.
Qed.

Lemma fan_out_acks_when_returned_witness :
  let s := exec
    [(2%nat, None); (0%nat, None); (1%nat, None); (1%nat, None); (0%nat, None);
     (1%nat, None); (2%nat, None); (1%nat, None)] (dispatch 3 0) in
  (0 < 3)%nat /\
  Forall (fun p => p = Returned) (callbacks s) /\
  (upstream_acks (trace s) <> [] /\
   (forall i x, (i, Some x) ∈ child_acks (trace s) ->
      Some x ∈ upstream_acks (trace s)) /\
   (Forall (fun c => c.2 = None) (child_acks (trace s)) ->
      upstream_acks (trace s) = [None])).
Proof.
  intros s.
  assert (Hn : (0 < 3)%nat) by exact (Nat.lt_0_succ 2).
  assert (Hret : Forall (fun p => p = Returned) (callbacks s))
    by (repeat constructor).
  split; [exact Hn|]. split; [exact Hret|].
  exact (fan_out_acks_when_returned 3 0 _ Hn Hret).
Defined.

Lemma fan_out_in_turn_witness :
  [None; Some (ErrMsg "boom"); None] <> [] /\
  upstream_acks (trace (exec (in_turn 0 [None; Some (ErrMsg "boom"); None])
                             (dispatch 3 0)))
  = if forallb is_nil [None; Some (ErrMsg "boom"); None] then [None]
    else filter is_Some [None; Some (ErrMsg "boom"); None].
Proof.
  assert (Hne : [None; Some (ErrMsg "boom"); None] <> ([] : list error))
    by discriminate.
  split; [exact Hne|].
  exact (fan_out_in_turn [None; Some (ErrMsg "boom"); None] 0 Hne).
Defined.

Lemma dec_count_insert (l : list pc) (i : nat) (p q : pc) :
  l !! i = Some p ->
  (dec_count (<[i := q]> l) + dec_count [p])%nat
  = (dec_count l + dec_count [q])%nat.
Proof.
  revert i. induction l as [|p' l IH]; intros [|i] Hi; simpl in *; try done.
  - inversion Hi; subst. destruct p, q; simpl; lia.
  - specialize (IH i Hi). destruct p'; simpl in *; lia.
Qed.

Lemma dec_count_replicate (n : nat) : dec_count (replicate n Pending) = O.
Proof. induction n; simpl; congruence. Qed.

Lemma ackPending_step (i : nat) (e : error) (s : state) :
  ackPending (step i e s)
  + Z.of_nat (length (upstream_acks (trace (step i e s))))
  - Z.of_nat (dec_count (callbacks (step i e s)))
  = ackPending s + Z.of_nat (length (upstream_acks (trace s)))
    - Z.of_nat (dec_count (callbacks s)).
Proof.
  unfold step. destruct (callbacks s !! i) as [p|] eqn:Hi; [|done].
  pose proof (fun q => dec_count_insert _ _ _ q Hi) as Hd.
  destruct p as [|e0|e0| |]; simpl; [..|done].
  - rewrite upstream_acks_snoc_child.
    set (next := if (pendingResponses s - 1 =? 0) || negb (is_nil e)
                 then AtStore e else Returned).
    assert (Hn : dec_count [next] = O) by (subst next; by case_match).
    specialize (Hd next). rewrite Hn in Hd. simpl in Hd. lia.
  - specialize (Hd (AtAck e0)). simpl in Hd. lia.
  - specialize (Hd AtDec). simpl in Hd.
    rewrite upstream_acks_snoc_upstream, length_app. simpl. lia.
  - specialize (Hd Returned). simpl in Hd. lia.
Qed.

(** The counter [ackPending] of the loop, raised by one when the transaction
    is taken, is lowered by one for every upstream ack whose closure has gone
    past line 103, in every interleaving: it is back at its old value exactly
    when one upstream ack has been accounted for. *)
Theorem fan_out_ackPending_accounting (n : nat) (a : Z) (sched : schedule) :
  let s := exec sched (dispatch n a) in
  ackPending s
  = a + 1 - Z.of_nat (length (upstream_acks (trace s)))
    + Z.of_nat (dec_count (callbacks s)).
Proof.
  simpl.
  assert (H : forall s0,
    ackPending (exec sched s0)
    + Z.of_nat (length (upstream_acks (trace (exec sched s0))))
    - Z.of_nat (dec_count (callbacks (exec sched s0)))
    = ackPending s0 + Z.of_nat (length (upstream_acks (trace s0)))
      - Z.of_nat (dec_count (callbacks s0))).
  { induction sched as [|[i e] sched IH]; intros s0; [done|].
    simpl. rewrite IH. apply ackPending_step. }
  specialize (H (dispatch n a)). simpl in H.
  rewrite dec_count_replicate in H. lia.
Qed.

(** C1: two children that both ack with an error.  The closure of each calls
    [ts.Ack]: the upstream ack is invoked twice, not exactly once, and
    [ackPending], raised once for the transaction, is lowered twice. *)
Theorem fan_out_two_errors_ack_twice (e1 e2 : err) (a : Z) :
  let s := exec (callback 0 (Some e1) ++ callback 1 (Some e2)) (dispatch 2 a) in
  child_acks (trace s) = [(0%nat, Some e1); (1%nat, Some e2)] /\
  upstream_acks (trace s) = [Some e1; Some e2] /\
  callbacks s = [Returned; Returned] /\
  ackPending s = a + 1 - 2.
Proof. simpl. repeat split; try reflexivity. unfold exec, step; simpl. lia. Qed.

(** C2: child 0 acks with an error and child 1 with nil, child 1 calling its
    closure after child 0 has passed the test of line 100 and before it
    reaches line 101.  The decrement of child 1 yields zero, so its closure
    acks upstream with nil, before the closure of child 0 acks with the
    error: an upstream ack carries nil although a child failed. *)
Theorem fan_out_nil_ack_with_failed_child (e : err) (a : Z) :
  let s := exec [(0%nat, Some e);
                 (1%nat, None); (1%nat, None); (1%nat, None); (1%nat, None);
                 (0%nat, Some e); (0%nat, Some e); (0%nat, Some e)]
                (dispatch 2 a) in
  child_acks (trace s) = [(0%nat, Some e); (1%nat, None)] /\
  upstream_acks (trace s) = [None; Some e] /\
  callbacks s = [Returned; Returned].
Proof. simpl. repeat split; reflexivity. Qed.

(** C3, as stated, fails: with two children, child 0 acking with an error
    brings the upstream ack about while child 1 has not acked. *)
Lemma fan_out_error_ack_before_all_children :
  let s := exec (callback 0 (Some (ErrMsg "boom"))) (dispatch 2 0) in
  trace s = [ChildAck 0 (Some (ErrMsg "boom")); UpstreamAck (Some (ErrMsg "boom"))] /\
  callbacks s !! 1%nat = Some Pending /\
  ~ acked_after_all 2 (trace s) (Some (ErrMsg "boom")).
Proof.
  simpl. repeat split; try reflexivity.
  intros H.
  destruct (H [ChildAck 0 (Some (ErrMsg "boom"))] [] eq_refl 1%nat) as [e' He']; [lia|].
  apply list_elem_of_singleton in He'. discriminate.
Qed.

(** C3, amended: whatever the number of children, the errors they ack with
    and the interleaving of their closures, an upstream ack that carries nil
    comes after the acks of all children, and an upstream ack that carries an
    error comes after the ack of a child with that error. *)
Theorem fan_out_nil_ack_after_all_children (n : nat) (a : Z) (sched : schedule) :
  let tr := trace (exec sched (dispatch n a)) in
  acked_after_all n tr None /\ error_from_child tr.
Proof.
  pose proof (fan_out_inv_exec n sched _ (fan_out_inv_dispatch n a)) as H.
  split; apply H.
Qed.

End FanOutAcks.

(** ** Consume *)

Section ConsumeOnce.

(** A broker from [newFanOutOutputBroker] is not started. *)
Lemma newFanOutOutputBroker_unstarted (consume_results : list error)
    (o : FanOut.fanOutOutputBroker) (e : error) :
  FanOut.newFanOutOutputBroker consume_results = (Some o, e) ->
  FanOut.transactions o = None /\ FanOut.loops o = O /\ e = None /\
  length (FanOut.outputTSChans o) = length consume_results.
Proof.
  unfold FanOut.newFanOutOutputBroker.
  destruct (FanOut.consume_all consume_results 0) as [cs|e'] eqn:Hc; [|done].
  intros H. inversion H; subst; clear H. simpl. repeat split.
  revert cs Hc. generalize O.
  induction consume_results as [|[e'|] rs IH]; intros i cs Hc; simpl in *.
  - by inversion Hc.
  - done.
  - destruct (FanOut.consume_all rs (S i)) as [cs'|] eqn:Hrs; [|done].
    inversion Hc; subst. simpl. f_equal. eauto.
Qed.






(** A first call given a nil channel leaves the output unstarted: the nil
    field is the only mark of a started output. *)
Lemma Consume_nil_then_again (o : FanOut.fanOutOutputBroker) (c : chan) :
  FanOut.transactions o = None ->
  (fan_out_consumes o [None; Some c]).2 = [None; None].
Proof. intros Ho. simpl. unfold FanOut.Consume. rewrite Ho. simpl. reflexivity. Qed.

End ConsumeOnce.

(** ** WaitForClose *)

Section Shutdown.

Lemma select_nil (done : nat -> bool) (pick_timer : bool) (timeout tick : nat) :
  select_done_or_timer done pick_timer tick timeout = None ->
  exists k, (k <= timeout)%nat /\ done (tick + k)%nat = true.
Proof.
  revert tick. induction timeout as [|r IH]; intros tick; simpl.
  - destruct (done tick) eqn:Hd; simpl; [|done].
    intros _. exists 0%nat. by rewrite Nat.add_0_r.
  - destruct (done tick) eqn:Hd.
    + intros _. exists 0%nat. rewrite Nat.add_0_r. split; [lia|done].
    + intros H. destruct (IH _ H) as (k & Hk & Hdone).
      exists (S k). split; [lia|]. by replace (tick + S k)%nat with (S tick + k)%nat by lia.
Qed.

Lemma select_timeout (done : nat -> bool) (pick_timer : bool) (timeout tick : nat) :
  (forall k, (k <= timeout)%nat -> done (tick + k)%nat = false) ->
  select_done_or_timer done pick_timer tick timeout = Some ErrTimeout.
Proof.
  revert tick. induction timeout as [|r IH]; intros tick Hd; simpl.
  - specialize (Hd 0%nat). rewrite Nat.add_0_r in Hd. by rewrite Hd.
  - pose proof (Hd 0%nat) as H0. rewrite Nat.add_0_r in H0. rewrite H0 by lia.
    apply IH. intros k Hk. replace (S tick + k)%nat with (tick + S k)%nat by lia.
    apply Hd. lia.
Qed.

Lemma select_closed_before (done : nat -> bool) (pick_timer : bool)
    (timeout tick k : nat) :
  (k < timeout)%nat -> done (tick + k)%nat = true ->
  select_done_or_timer done pick_timer tick timeout = None.
Proof.
  revert tick k. induction timeout as [|r IH]; intros tick k Hk Hd; [lia|].
  simpl. destruct (done tick) eqn:H0; [done|].
  destruct k as [|k]; [rewrite Nat.add_0_r in Hd; congruence|].
  apply (IH (S tick) k); [lia|]. by replace (S tick + k)%nat with (tick + S k)%nat by lia.
Qed.

(** The fan-out broker waits on the channel that [ShutdownComplete] closes
    at the end of its loop: nil means that channel was closed by the time of
    the return, and a channel still open when the timer fires means
    [ErrTimeout]. *)
Lemma fan_out_WaitForClose (hasClosed : nat -> bool) (pick_timer : bool)
    (timeout : nat) :
  (FanOut.WaitForClose hasClosed pick_timer timeout = None ->
     exists k, (k <= timeout)%nat /\ hasClosed k = true) /\
  ((forall k, (k <= timeout)%nat -> hasClosed k = false) ->
     FanOut.WaitForClose hasClosed pick_timer timeout = Some ErrTimeout).
Proof.
  split.
  - intros H. by apply select_nil in H.
  - intros H. by apply select_timeout.
Qed.

(** [CloseAsync] on the fan-out broker asks for the shutdown and leaves the
    has-closed channel to the loop: as long as the loop has not called
    [ShutdownComplete], [WaitForClose] ends with [ErrTimeout]; once it has,
    with nil. *)
Lemma fan_out_WaitForClose_after_CloseAsync (o : FanOut.fanOutOutputBroker)
    (pick_timer : bool) (timeout : nat) :
  Signaller.hasClosedChan (FanOut.shutSig o) = false ->
  let sig := FanOut.shutSig (FanOut.CloseAsync o) in
  FanOut.WaitForClose (fun _ => Signaller.hasClosedChan sig) pick_timer timeout
    = Some ErrTimeout /\
  ((0 < timeout)%nat ->
   FanOut.WaitForClose
     (fun _ => Signaller.hasClosedChan (Signaller.ShutdownComplete sig))
     pick_timer timeout = None).
Proof.
  intros Ho. simpl. split.
  - by apply select_timeout.
  - intros Ht. destruct timeout; [lia|]. done.
Qed.

(** The resource output waits on its context, which [CloseAsync] cancels by
    itself: the wait ends with nil while the loop started by [Consume] has
    not returned. *)
Lemma resource_WaitForClose_while_looping {M : Type} (r : Resource.Resource M)
    (c : chan) (pick_timer : bool) (timeout : nat) :
  Resource.transactions r = None -> (0 < timeout)%nat ->
  let r' := Resource.CloseAsync (Resource.Consume r (Some c)).1 in
  Resource.WaitForClose (fun _ => Resource.ctx_done r') pick_timer timeout = None /\
  Resource.looping r' = true /\
  Resource.looping (Resource.loop_return false r') = false.
Proof.
  intros Hr Ht. unfold Resource.Consume. rewrite Hr. simpl.
  destruct timeout; [lia|]. done.
Qed.

(** C4: a connected MQTT writer and a connected Redis list writer on which
    [CloseAsync] has been called.  [WaitForClose] returns nil at once, for
    every timeout, while the client is still held and the goroutine that
    disconnects it has not run; the connection is given up only when that
    goroutine is scheduled. *)
Theorem writers_WaitForClose_before_disconnect (c : writer.conn)
    (key : nat -> message.Batch -> string) (client : writer.RedisClient)
    (timeout : nat) :
  let m := writer.MQTT_CloseAsync (mkSpawned (writer.mkMQTT (Some c) []) []) in
  let r := writer.RedisList_CloseAsync
             (mkSpawned (writer.mkRedisList key (Some client)) []) in
  (writer.MQTT_WaitForClose m timeout = None /\
   writer.mqtt_client (obj m) = Some c /\
   writer.mqtt_disconnected (obj m) = [] /\
   length (goroutines m) = 1%nat /\
   obj (run_next m) = writer.mkMQTT None [c]) /\
  (writer.RedisList_WaitForClose r timeout = None /\
   writer.list_client (obj r) = Some client /\
   length (goroutines r) = 1%nat /\
   writer.list_client (obj (run_next r)) = None).
Proof. simpl. repeat split; reflexivity. Qed.

(** The Redis hash writer disconnects inside [CloseAsync], so that its
    [WaitForClose] finds the client gone. *)
Lemma RedisHash_closed_on_return (w : spawned writer.RedisHash) (timeout : nat) :
  let w' := writer.RedisHash_CloseAsync w in
  writer.RedisHash_WaitForClose w' timeout = None /\
  writer.hash_client (obj w') = None.
Proof. done. Qed.

End Shutdown.

(** ** NewResource *)

Section ResourceConstruction.

Context {M : Type} `{Resource.Manager M}.

(** C10: for a label the manager does not hold, [NewResource] returns an
    error and no component. *)
Theorem NewResource_unknown_label (m : M) (label : string) :
  Resource.ProbeOutput m label = false ->
  exists e, Resource.NewResource label m = (None, Some e).
Proof. intros Hp. unfold Resource.NewResource. rewrite Hp. simpl. eauto. Qed.

(** A label the manager holds yields an output that is not started. *)
Lemma NewResource_known_label (m : M) (label : string) :
  Resource.ProbeOutput m label = true ->
  Resource.NewResource label m =
    (Some (Resource.mkResource m label None false 0 false), None).
Proof. intros Hp. unfold Resource.NewResource. by rewrite Hp. Qed.

End ResourceConstruction.

Lemma NewResource_unknown_label_witness :
  Resource.ProbeOutput (Resource.mkManager {[ "foo"%string := 3%nat ]}) "bar"%string = false /\
  exists e, Resource.NewResource "bar"%string
              (Resource.mkManager {[ "foo"%string := 3%nat ]}) = (None, Some e).
Proof.
  split; [reflexivity|].
  exact (NewResource_unknown_label
           (Resource.mkManager {[ "foo"%string := 3%nat ]}) "bar"%string eq_refl).
Defined.

(** ** The Redis list writer *)

Section RedisPipeline.

Import writer.

Lemma recorded_failed (b : option ibatch.Error) (msg : message.Batch)
    (i : nat) (e : err) :
  recorded (Some (ibatch.Failed
                    (match b with Some b => b | None => ibatch.NewError msg e end)
                    i e)) = <[i := e]> (recorded b).
Proof. by destruct b. Qed.

Lemma failed_at_cons_S (res : error) (cmders : list error) (k : nat) :
  failed_at (res :: cmders) (S k) = failed_at cmders k.
Proof. reflexivity. Qed.

Lemma failed_at_cons_0 (res : error) (cmders : list error) :
  failed_at (res :: cmders) 0 = res.
Proof. by destruct res. Qed.

Lemma failed_cmders_recorded (msg : message.Batch) (cmders : list error)
    (i : nat) (acc : option ibatch.Error) (j : nat) :
  recorded (failed_cmders msg cmders i acc) !! j =
    if decide (i <= j)%nat then
      match failed_at cmders (j - i) with
      | Some e => Some e
      | None => recorded acc !! j
      end
    else recorded acc !! j.
Proof.
  revert i acc. induction cmders as [|res cmders IH]; intros i acc.
  - simpl. by case_decide.
  - destruct res as [e|]; cbn [failed_cmders]; rewrite IH.
    + rewrite recorded_failed. repeat case_decide; try lia.
      * replace (j - i)%nat with (S (j - S i)) by lia.
        rewrite failed_at_cons_S.
        destruct (failed_at cmders (j - S i)); [done|].
        by rewrite lookup_insert_ne by lia.
      * assert (j = i) as -> by lia. rewrite Nat.sub_diag.
        rewrite failed_at_cons_0. by rewrite lookup_insert_eq.
      * by rewrite lookup_insert_ne by lia.
    + repeat case_decide; try lia.
      * replace (j - i)%nat with (S (j - S i)) by lia.
        by rewrite failed_at_cons_S.
      * assert (j = i) as -> by lia. rewrite Nat.sub_diag.
        by rewrite failed_at_cons_0.
      * done.
Qed.

Lemma failed_cmders_source (msg : message.Batch) (cmders : list error)
    (i : nat) (b0 : ibatch.Error) :
  exists b, failed_cmders msg cmders i (Some b0) = Some b /\
    ibatch.source b = ibatch.source b0 /\ ibatch.cause b = ibatch.cause b0.
Proof.
  revert i b0. induction cmders as [|res cmders IH]; intros i b0; simpl; [eauto|].
  destruct res as [e|]; [|apply IH].
  destruct (IH (S i) (ibatch.Failed b0 i e)) as (b & Hb & Hs & Hc). eauto.
Qed.

Lemma failed_cmders_all_nil (msg : message.Batch) (cmders : list error) (i : nat) :
  Forall (fun res => res = None) cmders ->
  failed_cmders msg cmders i None = None.
Proof.
  intros H. revert i. induction H as [|res cmders -> _ IH]; intros i; simpl; [done|].
  apply IH.
Qed.

Lemma failed_cmders_some_failed (msg : message.Batch) (cmders : list error) (i : nat) :
  Exists (fun res => res <> None) cmders ->
  exists b, failed_cmders msg cmders i None = Some b /\ ibatch.source b = msg.
Proof.
  intros H. revert i. induction H as [res cmders Hres|res cmders _ IH]; intros i.
  - destruct res as [e|]; [|done]. simpl.
    destruct (failed_cmders_source msg cmders (S i)
                (ibatch.Failed (ibatch.NewError msg e) i e)) as (b & Hb & Hs & _).
    eauto.
  - destruct res as [e|]; simpl; [|apply IH].
    destruct (failed_cmders_source msg cmders (S i)
                (ibatch.Failed (ibatch.NewError msg e) i e)) as (b & Hb & Hs & _).
    eauto.
Qed.

(** C5: a connected Redis list writer given a batch of more than one part,
    the exchange of the pipeline succeeding with the results [cmders].  If
    every command succeeded the writer returns nil; if some command failed it
    returns a batch error on that batch whose part errors are, index by
    index, the errors of the commands that failed, and nothing else.  The
    client is kept in both cases. *)
Theorem WriteWithContext_pipeline (r : RedisList) (client : RedisClient)
    (msg : message.Batch) (cmders : list error) :
  list_client r = Some client ->
  (1 < message.Len msg)%nat ->
  Exec client (map (fun p => (keyStr r 0%nat msg, message.Get p)) msg) = (cmders, None) ->
  (Forall (fun res => res = None) cmders ->
     WriteWithContext r msg = (r, WriteNil)) /\
  (Exists (fun res => res <> None) cmders ->
     exists b, WriteWithContext r msg = (r, WriteBatchErr b) /\
       ibatch.source b = msg /\
       forall i, ibatch.partErrors b !! i = failed_at cmders i).
Proof.
  intros Hc Hlen Hexec. unfold WriteWithContext. rewrite Hc.
  destruct (message.Len msg =? 1)%nat eqn:H1; [apply Nat.eqb_eq in H1; lia|].
  rewrite Hexec. split.
  - intros Hall. by rewrite failed_cmders_all_nil.
  - intros Hex.
    destruct (failed_cmders_some_failed msg cmders 0 Hex) as (b & Hb & Hs).
    exists b. rewrite Hb. repeat split; [done|]. intros i.
    pose proof (failed_cmders_recorded msg cmders 0 None i) as Hrec.
    rewrite Hb in Hrec. simpl in Hrec. rewrite Hrec.
    rewrite Nat.sub_0_r. by destruct (failed_at cmders i).
Qed.

Lemma WriteWithContext_pipeline_witness :
  let client := mkRedisClient (fun _ _ => None)
                  (fun cmds => ([None; Some (ErrMsg "WRONGTYPE"); None], None)) in
  let r := mkRedisList (fun _ _ => "queue"%string) (Some client) in
  let msg := [message.NewPart [x61]; message.NewPart [x62]; message.NewPart [x63]] in
  list_client r = Some client /\
  (1 < message.Len msg)%nat /\
  Exec client (map (fun p => (keyStr r 0%nat msg, message.Get p)) msg)
    = ([None; Some (ErrMsg "WRONGTYPE"); None], None) /\
  (Forall (fun res => res = None) [None; Some (ErrMsg "WRONGTYPE"); None] ->
     WriteWithContext r msg = (r, WriteNil)) /\
  (Exists (fun res => res <> None) [None; Some (ErrMsg "WRONGTYPE"); None] ->
     exists b, WriteWithContext r msg = (r, WriteBatchErr b) /\
       ibatch.source b = msg /\
       forall i, ibatch.partErrors b !! i
                 = failed_at [None; Some (ErrMsg "WRONGTYPE"); None] i).
Proof.
  intros client r msg.
  split; [reflexivity|]. split; [simpl; lia|]. split; [reflexivity|].
  exact (WriteWithContext_pipeline r client msg
           [None; Some (ErrMsg "WRONGTYPE"); None]
           eq_refl ltac:(simpl; lia) eq_refl).
Defined.

End RedisPipeline.

(** ** The archive processor *)

Section ArchiveProcessor.

Import archive.

(** C9: on a batch of size 0 the archive processor returns no batch and a
    nil error, whatever its archiver. *)
Theorem ProcessBatch_empty (d : archive) : ProcessBatch d [] = ([], None).
Proof. reflexivity. Qed.

(** C7, as stated, fails: the [json_array] archiver refuses a part that is
    not a JSON document, and [ProcessBatch] then returns the error and no
    batch. *)
Lemma ProcessBatch_json_array_not_json :
  ProcessBatch (mkArchive jsonArrayArchive (fun _ _ => "a.txt"%string))
               [message.NewPart (String.list_byte_of_string "oops")]
  = ([], Some (ErrWrap "failed to parse message as JSON"
                       (ErrMsg "invalid JSON document"))).
Proof. vm_compute. reflexivity. Qed.

(** Each of the six archivers, when it returns a part, returns the first part
    of the batch with a new payload. *)
Lemma archiver_keeps_first {TW TH ZW ZH : Type}
    (tarW : ArchiveWriter TW TH) (zipW : ArchiveWriter ZW ZH)
    (format : string) (f : archiveFunc) (hFunc : headerFunc)
    (first : message.Part) (rest : message.Batch) (p : message.Part) :
  strToArchiver tarW zipW format = inl f ->
  f hFunc (first :: rest) = inl p ->
  message.metadata p = message.metadata first /\
  message.collapsedCount p = message.collapsedCount first.
Proof.
  unfold strToArchiver. intros Hf Hp.
  repeat (case_match; [inversion Hf; subst f; clear Hf|]); [..|done].
  - unfold tarArchive in Hp.
    destruct (write_parts tarW hFunc 0 (first :: rest) NewWriter) as [tw [e|]];
      inversion Hp; done.
  - unfold zipArchive in Hp.
    destruct (write_parts zipW hFunc 0 (first :: rest) NewWriter) as [zw [e|]];
      inversion Hp; done.
  - inversion Hp; done.
  - inversion Hp; done.
  - unfold jsonArrayArchive in Hp.
    destruct (json_docs (first :: rest) []) as [array|e]; inversion Hp; done.
  - inversion Hp; done.
Qed.

(** The [binary], [lines] and [concatenate] archivers return no error. *)
Lemma archiver_total {TW TH ZW ZH : Type}
    (tarW : ArchiveWriter TW TH) (zipW : ArchiveWriter ZW ZH)
    (format : string) (f : archiveFunc) (hFunc : headerFunc) (msg : message.Batch) :
  strToArchiver tarW zipW format = inl f ->
  format = "binary"%string \/ format = "lines"%string \/ format = "concatenate"%string ->
  exists p, f hFunc msg = inl p.
Proof.
  intros Hf [-> | [-> | ->]].
  - change (inl binaryArchive = inl (B:=err) f) in Hf. inversion Hf. subst f.
    unfold binaryArchive. eauto.
  - change (inl linesArchive = inl (B:=err) f) in Hf. inversion Hf. subst f.
    unfold linesArchive. eauto.
  - change (inl concatenateArchive = inl (B:=err) f) in Hf. inversion Hf. subst f.
    unfold concatenateArchive. eauto.
Qed.

(** C7, amended: for a processor made for one of the six formats and a
    non-empty batch of length n.  If the archiver returns a part,
    [ProcessBatch] returns exactly one batch with exactly one part, which has
    the payload the archiver made, the metadata of the first part of the
    input and the collapsed count n.  If the archiver returns an error,
    [ProcessBatch] returns that error and no batch.  The [binary], [lines] and
    [concatenate] archivers always return a part. *)
Theorem ProcessBatch_one_part {TW TH ZW ZH : Type}
    (tarW : ArchiveWriter TW TH) (zipW : ArchiveWriter ZW ZH)
    (format : string) (f : archiveFunc) (path : nat -> message.Batch -> string)
    (first : message.Part) (rest : message.Batch) :
  strToArchiver tarW zipW format = inl f ->
  let d := mkArchive f path in
  let msg := first :: rest in
  (forall p, f (createHeaderFunc d msg) msg = inl p ->
     exists part, ProcessBatch d msg = ([[part]], None) /\
       message.data part = message.data p /\
       message.metadata part = message.metadata first /\
       message.collapsedCount part = Some (length msg)) /\
  (forall e, f (createHeaderFunc d msg) msg = inr e ->
     ProcessBatch d msg = ([], Some e)) /\
  (format = "binary"%string \/ format = "lines"%string \/ format = "concatenate"%string ->
     exists p, f (createHeaderFunc d msg) msg = inl p).
Proof.
  intros Hf d msg. split; [|split].
  - intros p Hp. unfold ProcessBatch. cbn [message.Len length Nat.eqb].
    cbn [archive_fn d]. fold msg. rewrite Hp.
    eexists. split; [reflexivity|]. split; [reflexivity|]. split; [|reflexivity].
    simpl.
    by destruct (archiver_keeps_first tarW zipW format f _ first rest p Hf Hp).
  - intros e He. unfold ProcessBatch. cbn [message.Len length Nat.eqb].
    cbn [archive_fn d]. fold msg. by rewrite He.
  - intros Hfmt. exact (archiver_total tarW zipW format f _ msg Hf Hfmt).
Qed.

Lemma ProcessBatch_one_part_witness :
  let first := message.mkPart [x68; x69] {[ "k"%string := "v"%string ]} None in
  let rest := [message.NewPart [x79; x6f]] in
  let path := fun (i : nat) (_ : message.Batch) => "a.txt"%string in
  let d := mkArchive linesArchive path in
  let msg := first :: rest in
  strToArchiver plain_writer plain_writer "lines" = inl linesArchive /\
  (forall p, linesArchive (createHeaderFunc d msg) msg = inl p ->
     exists part, ProcessBatch d msg = ([[part]], None) /\
       message.data part = message.data p /\
       message.metadata part = message.metadata first /\
       message.collapsedCount part = Some (length msg)) /\
  (forall e, linesArchive (createHeaderFunc d msg) msg = inr e ->
     ProcessBatch d msg = ([], Some e)) /\
  ("lines"%string = "binary"%string \/ "lines"%string = "lines"%string
     \/ "lines"%string = "concatenate"%string ->
     exists p, linesArchive (createHeaderFunc d msg) msg = inl p).
Proof.
  intros first rest path d msg.
  split; [reflexivity|].
  exact (ProcessBatch_one_part plain_writer plain_writer "lines" linesArchive
           path first rest eq_refl).
Defined.

End ArchiveProcessor.

(** ** Archives and their readers *)

Section ArchiveRoundTrip.

Import archive.

Lemma Z_of_byte_of_Z (z : Z) :
  message.Z_of_byte (message.byte_of_Z z) = z mod 256.
Proof.
  unfold message.Z_of_byte, message.byte_of_Z.
  pose proof (Z.mod_pos_bound z 256 eq_refl) as Hb.
  destruct (Byte.of_N (Z.to_N (z mod 256))) as [b|] eqn:E; simpl.
  - apply Byte.to_of_N in E. rewrite E. lia.
  - apply Byte.of_N_None_iff in E. lia.
Qed.

(** The four bytes of [uint32(n)] read back as [uint32(n)]. *)
Lemma of_be32_be32 (n : Z) (b0 b1 b2 b3 : byte) :
  message.be32 n = [b0; b1; b2; b3] ->
  message.of_be32 b0 b1 b2 b3 = n mod 2 ^ 32.
Proof.
  unfold message.be32, message.of_be32. intros H. inversion H; subst; clear H.
  rewrite !Z_of_byte_of_Z. set (u := n mod 2 ^ 32).
  change 256 with (2 ^ 8).
  apply Z.bits_inj'. intros k Hk.
  rewrite !Z.lor_spec, !Z.shiftl_spec, !Z.testbit_mod_pow2 by lia.
  assert (Hhigh : 32 <= k -> Z.testbit u k = false).
  { intros Hk32. subst u. rewrite Z.testbit_mod_pow2 by lia.
    destruct (Z.ltb_spec k 32); [lia|done]. }
  destruct (Z.ltb_spec (k - 24) 8), (Z.ltb_spec (k - 16) 8),
           (Z.ltb_spec (k - 8) 8), (Z.ltb_spec k 8); try lia;
    repeat match goal with
    | |- context [Z.testbit (Z.shiftr u ?s) (k - ?s)] =>
        destruct (Z.le_gt_cases 0 (k - s));
        [rewrite (Z.shiftr_spec u s (k - s)) by lia;
         replace (k - s + s) with k by lia
        |rewrite (Z.testbit_neg_r (Z.shiftr u s) (k - s)) by lia]
    end;
    simpl; rewrite ?orb_false_r, ?orb_false_l, ?Hhigh by lia;
    try reflexivity; try lia;
    destruct (Z.testbit u k); reflexivity.
Qed.

Lemma be32_length (n : Z) : exists b0 b1 b2 b3, message.be32 n = [b0; b1; b2; b3].
Proof. unfold message.be32. eauto. Qed.

Lemma read_parts_flat_map (msg : message.Batch) (tail : list byte) :
  Forall (fun p => Z.of_nat (length (message.Get p)) < 2 ^ 32) msg ->
  message.read_parts (length msg)
    (flat_map (fun p => message.be32 (Z.of_nat (length (message.Get p)))
                        ++ message.Get p) msg ++ tail)
  = Some (map message.Get msg).
Proof.
  induction 1 as [|p msg Hp _ IH]; [done|].
  cbn [length flat_map map].
  destruct (be32_length (Z.of_nat (length (message.Get p)))) as (b0 & b1 & b2 & b3 & Hb).
  rewrite Hb. cbn [app message.read_parts].
  rewrite (of_be32_be32 _ _ _ _ _ Hb), Z.mod_small, Nat2Z.id by lia.
  rewrite <- !app_assoc.
  destruct (Nat.ltb_spec (length (message.Get p ++ flat_map
              (fun p => message.be32 (Z.of_nat (length (message.Get p)))
                        ++ message.Get p) msg ++ tail))
              (length (message.Get p))) as [Hlt|_].
  { rewrite length_app in Hlt. lia. }
  rewrite drop_app_length, take_app_length, IH. reflexivity.
Qed.

Lemma FromBytes_ToBytes (msg : message.Batch) :
  Z.of_nat (length msg) < 2 ^ 32 ->
  Forall (fun p => Z.of_nat (length (message.Get p)) < 2 ^ 32) msg ->
  message.FromBytes (message.ToBytes msg) = Some (map message.Get msg).
Proof.
  intros Hn Hparts. unfold message.ToBytes, message.Len.
  destruct (be32_length (Z.of_nat (length msg))) as (b0 & b1 & b2 & b3 & Hb).
  rewrite Hb. cbn [app message.FromBytes].
  rewrite (of_be32_be32 _ _ _ _ _ Hb), Z.mod_small, Nat2Z.id by lia.
  rewrite <- (app_nil_r (flat_map _ msg)). by apply read_parts_flat_map.
Qed.

(** The [lines] archiver maps the batch of the single part "a\nb" and the
    batch of the two parts "a" and "b", both of identically sized parts, to
    the same payload "a\nb", so that no unarchiver gives back the batch in
    both cases. *)
Lemma lines_archive_no_round_trip :
  ~ exists unarchive, round_trips linesArchive unarchive.
Proof.
  intros [unarchive H].
  set (hFunc := fun (_ : nat) (_ : message.Part) => mkFakeInfo "a.txt" 0 438).
  destruct (H hFunc [message.NewPart [x61; x0a; x62]]) as (p1 & Hp1 & Hu1); [done| |].
  { intros p q Hp Hq. apply list_elem_of_singleton in Hp, Hq. by subst. }
  destruct (H hFunc [message.NewPart [x61]; message.NewPart [x62]])
    as (p2 & Hp2 & Hu2); [done| |].
  { intros p q Hp Hq.
    apply elem_of_cons in Hp as [->|Hp]; [|apply list_elem_of_singleton in Hp; subst];
    apply elem_of_cons in Hq as [->|Hq]; try done;
    apply list_elem_of_singleton in Hq; by subst. }
  inversion Hp1; subst p1. inversion Hp2; subst p2.
  simpl in Hu1, Hu2. congruence.
Qed.

(** The [binary] format read back: for every non-empty batch with fewer than
    2^32 parts, each shorter than 2^32 bytes, reading the archived part by
    the documented format yields the payloads of the batch in order, and the
    archived part has the metadata of the first part. *)
Lemma binary_archive_round_trip (hFunc : headerFunc)
    (first : message.Part) (rest : message.Batch) :
  let msg := first :: rest in
  Z.of_nat (length msg) < 2 ^ 32 ->
  Forall (fun p => Z.of_nat (length (message.Get p)) < 2 ^ 32) msg ->
  exists part, binaryArchive hFunc msg = inl part /\
    message.FromBytes (message.Get part) = Some (map message.Get msg) /\
    message.metadata part = message.metadata first.
Proof.
  intros msg Hn Hparts. eexists. split; [reflexivity|]. split; [|reflexivity].
  unfold message.Get at 1. cbn [message.Set_ message.data].
  by apply FromBytes_ToBytes.
Qed.

Lemma identically_sized_Forall (n : nat) (msg : message.Batch) :
  Forall (fun p => length (message.Get p) = n) msg -> identically_sized msg.
Proof.
  intros H p q Hp Hq.
  rewrite Forall_forall in H. by rewrite (H p Hp), (H q Hq).
Qed.

Lemma collision_no_round_trip (f : archiveFunc) (hFunc : headerFunc)
    (m1 m2 : message.Batch) :
  m1 <> [] -> m2 <> [] -> identically_sized m1 -> identically_sized m2 ->
  f hFunc m1 = f hFunc m2 -> map message.Get m1 <> map message.Get m2 ->
  ~ exists unarchive, round_trips f unarchive.
Proof.
  intros Hn1 Hn2 Hs1 Hs2 Hf Hne [unarchive H].
  destruct (H hFunc m1 Hn1 Hs1) as (p1 & Hp1 & Hu1).
  destruct (H hFunc m2 Hn2 Hs2) as (p2 & Hp2 & Hu2).
  rewrite Hf, Hp2 in Hp1. inversion Hp1; subst. congruence.
Qed.

Lemma two32_Z : Z.of_nat two32 = 2 ^ 32.
Proof. unfold two32. apply Z2Nat.id. by vm_compute. Qed.

Lemma two32_pos : two32 <> 0%nat.
Proof.
  intros H. pose proof two32_Z as HZ. rewrite H in HZ.
  vm_compute in HZ. discriminate HZ.
Qed.

Lemma FromBytes_count_wraps (msg : message.Batch) :
  Z.of_nat (length msg) = 2 ^ 32 ->
  message.FromBytes (message.ToBytes msg) = Some [].
Proof.
  intros H. unfold message.ToBytes, message.Len. rewrite H.
  change (message.be32 (2 ^ 32)) with [x00; x00; x00; x00]. reflexivity.
Qed.

Lemma FromBytes_length_wraps (b : list byte) :
  Z.of_nat (length b) = 2 ^ 32 ->
  message.FromBytes (message.ToBytes [message.NewPart b]) = Some [[]].
Proof.
  intros H. unfold message.ToBytes, message.Len.
  cbn [flat_map message.Get message.NewPart message.data length].
  rewrite H.
  change (message.be32 (2 ^ 32)) with [x00; x00; x00; x00].
  change (message.be32 (Z.of_nat 1)) with [x00; x00; x00; x01].
  reflexivity.
Qed.

Lemma many_parts_length : length many_parts = two32.
Proof. unfold many_parts. apply length_replicate. Qed.

(** C6, as stated, fails for four of the formats.  The [lines] archiver maps
    the batches ["a\nb"] and ["a"; "b"] to one payload, the [concatenate]
    archiver the batches ["ab"] and ["a"; "b"], and the [json_array] archiver
    the batches [" 1"] and ["1 "], all of identically sized parts: no
    unarchiver gives back both batches of such a pair.  With the [binary]
    format four bytes count no 2^32: an archive of 2^32 empty parts reads back
    as no part, and an archive of one part of 2^32 bytes as an empty part. *)
Lemma archives_no_round_trip :
  (~ exists unarchive, round_trips linesArchive unarchive) /\
  (~ exists unarchive, round_trips concatenateArchive unarchive) /\
  (~ exists unarchive, round_trips jsonArrayArchive unarchive) /\
  (many_parts <> [] /\ identically_sized many_parts /\
   exists part,
     binaryArchive (fun _ _ => mkFakeInfo "a.txt" 0 438) many_parts = inl part /\
     message.FromBytes (message.Get part) = Some [] /\
     Some [] <> Some (map message.Get many_parts)) /\
  (long_part <> [] /\ identically_sized long_part /\
   exists part,
     binaryArchive (fun _ _ => mkFakeInfo "a.txt" 0 438) long_part = inl part /\
     message.FromBytes (message.Get part) = Some [[]] /\
     Some [[]] <> Some (map message.Get long_part)).
Proof.
  set (hFunc := fun (_ : nat) (_ : message.Part) => mkFakeInfo "a.txt" 0 438).
  assert (many_parts <> []) as Hmany.
  { intros H. apply (f_equal length) in H. rewrite many_parts_length in H.
    by apply two32_pos. }
  split_and!.
  - exact lines_archive_no_round_trip.
  - apply (collision_no_round_trip concatenateArchive hFunc
             [message.NewPart [x61; x62]]
             [message.NewPart [x61]; message.NewPart [x62]]); try done.
    + apply (identically_sized_Forall 2). repeat constructor.
    + apply (identically_sized_Forall 1). repeat constructor.
  - apply (collision_no_round_trip jsonArrayArchive hFunc
             [message.NewPart [x20; x31]] [message.NewPart [x31; x20]]);
      try done.
    + apply (identically_sized_Forall 2). repeat constructor.
    + apply (identically_sized_Forall 2). repeat constructor.
  - exact Hmany.
  - apply (identically_sized_Forall 0). unfold many_parts.
    apply Forall_forall. intros p Hp.
    by rewrite (elem_of_replicate_inv _ _ _ Hp).
  - unfold binaryArchive. eexists. split; [reflexivity|].
    change (message.Get (message.Set_ ?p ?b)) with b.
    split.
    + apply FromBytes_count_wraps. rewrite many_parts_length. apply two32_Z.
    + intros H.
      assert (length (@nil (list byte)) = length (map message.Get many_parts))
        as Hl by congruence.
      rewrite length_map, many_parts_length in Hl. symmetry in Hl.
      by apply two32_pos.
  - intros H. inversion H.
  - apply (identically_sized_Forall two32). unfold long_part.
    constructor; [|constructor].
    cbn [message.Get message.NewPart message.data]. apply length_replicate.
  - unfold binaryArchive. eexists. split; [reflexivity|].
    change (message.Get (message.Set_ ?p ?b)) with b.
    split.
    + apply FromBytes_length_wraps. rewrite length_replicate. apply two32_Z.
    + unfold long_part.
      cbn [map message.Get message.NewPart message.data].
      intros H.
      assert (length (@nil byte) = length (replicate two32 x00)) as Hl
        by congruence.
      rewrite length_replicate in Hl. symmetry in Hl. by apply two32_pos.
Qed.

Lemma read_unary_frame (k : nat) (rest : list byte) :
  forall n, read_unary (replicate k x01 ++ x00 :: rest) n = Some ((n + k)%nat, rest).
Proof.
  induction k as [|k IH]; intros n; cbn [replicate app read_unary].
  - destruct (decide (x00 = x00)) as [_|Hne]; [|done]. by rewrite Nat.add_0_r.
  - destruct (decide (x01 = x00)) as [Heq|_]; [discriminate Heq|].
    destruct (decide (x01 = x01)) as [_|Hne]; [|done].
    rewrite IH. by rewrite Nat.add_succ_r.
Qed.

Lemma read_frames_step (k n : nat) (b rest : list byte) :
  read_unary b 0 = Some (n, rest) ->
  read_frames (S k) b
  = if (length rest <? n)%nat then None
    else match read_frames k (drop n rest) with
         | Some l => Some (take n rest :: l)
         | None => None
         end.
Proof.
  intros Hu. destruct b as [|c b]; [discriminate Hu|].
  cbn [read_frames]. by rewrite Hu.
Qed.

Lemma read_frames_frames (l : list (list byte)) :
  forall fuel, (length l <= fuel)%nat ->
  read_frames fuel (flat_map frame l) = Some l.
Proof.
  induction l as [|b l IH]; intros fuel Hf.
  - by destruct fuel.
  - destruct fuel as [|k]; [simpl in Hf; lia|].
    cbn [flat_map]. unfold frame at 1.
    rewrite <- app_assoc, <- app_comm_cons.
    rewrite (read_frames_step k (length b) _ (b ++ flat_map frame l))
      by apply (read_unary_frame (length b) _ 0%nat).
    replace (length (b ++ flat_map frame l) <? length b)%nat with false
      by (symmetry; apply Nat.ltb_ge; rewrite length_app; lia).
    rewrite drop_app_length, take_app_length, IH; [done|].
    simpl in Hf. lia.
Qed.

Lemma frames_length (l : list (list byte)) :
  (length l <= length (flat_map frame l))%nat.
Proof.
  induction l as [|b l IH]; [done|].
  cbn [flat_map length]. unfold frame at 1.
  rewrite !length_app. cbn [length]. lia.
Qed.

Lemma framed_entries (w : list byte) (l : list (list byte)) :
  entries_written framed_writer w l -> w = flat_map frame l.
Proof.
  intros Hent. induction Hent as [|w w1 w2 fi hdr b l _ IH Hsize Hh Hwh Hwr];
    [done|].
  cbn in Hh, Hwh, Hwr. inversion Hh; subst hdr.
  inversion Hwh; subst w1. inversion Hwr; subst w2.
  rewrite Hsize, Nat2Z.id, flat_map_app, <- IH. cbn [flat_map].
  rewrite app_nil_r. unfold frame.
  rewrite <- !app_assoc. reflexivity.
Qed.

Lemma framed_reads_back : reads_back framed_writer framed_reader.
Proof.
  intros w l Hent. apply framed_entries in Hent as ->.
  cbn [Bytes Close framed_writer]. unfold framed_reader.
  apply read_frames_frames, frames_length.
Qed.

Lemma write_parts_entries {W H : Type} (aw : ArchiveWriter W H)
    (d : archive) (msg0 : message.Batch) (parts : message.Batch) :
  forall (i : nat) (w w' : W) (l : list (list byte)),
  entries_written aw w l ->
  write_parts aw (createHeaderFunc d msg0) i parts w = (w', None) ->
  entries_written aw w' (l ++ map message.Get parts).
Proof.
  induction parts as [|part parts IH]; intros i w w' l Hl Hw;
    cbn [write_parts] in Hw.
  - inversion Hw; subst. by rewrite app_nil_r.
  - destruct (FileInfoHeader (createHeaderFunc d msg0 i part)) as [hdr|e] eqn:Hh;
      [|done].
    destruct (WriteHeader w hdr) as [w1 [e|]] eqn:Hwh; [done|].
    destruct (Write w1 (message.Get part)) as [w2 [e|]] eqn:Hwr; [done|].
    cbn [map]. rewrite cons_middle, app_assoc.
    apply (IH (S i) w2 w'); [|done].
    exact (entries_more aw w w1 w2 (createHeaderFunc d msg0 i part) hdr
             (message.Get part) l Hl eq_refl Hh Hwh Hwr).
Qed.

(** C6, amended: for the [tar], [zip] and [binary] formats and every
    non-empty batch, of identically sized parts or not.  When the tar or zip
    writer reports no error the archiver returns a part, and every reader that
    yields the bodies of the entries written to an archive yields from that
    part the payloads of the batch, in order.  When the batch has fewer than
    2^32 parts, each shorter than 2^32 bytes, reading the part of the [binary]
    archiver by the documented format yields the payloads of the batch, in
    order.  In each case the part has the metadata of the first part of the
    batch. *)
Theorem archive_round_trip {W H : Type} (aw : ArchiveWriter W H)
    (reader : list byte -> option (list (list byte)))
    (d : archive) (msg0 : message.Batch)
    (first : message.Part) (rest : message.Batch) :
  reads_back aw reader ->
  let msg := first :: rest in
  let hFunc := createHeaderFunc d msg0 in
  (forall w, write_parts aw hFunc 0 msg NewWriter = (w, None) ->
     exists part,
       tarArchive aw hFunc msg = inl part /\
       zipArchive aw hFunc msg = inl part /\
       reader (message.Get part) = Some (map message.Get msg) /\
       message.metadata part = message.metadata first) /\
  (Z.of_nat (length msg) < 2 ^ 32 ->
   Forall (fun p => Z.of_nat (length (message.Get p)) < 2 ^ 32) msg ->
   exists part,
     binaryArchive hFunc msg = inl part /\
     message.FromBytes (message.Get part) = Some (map message.Get msg) /\
     message.metadata part = message.metadata first).
Proof.
  intros Hreader msg hFunc. split.
  - intros w Hw. unfold tarArchive, zipArchive. rewrite Hw.
    eexists. split; [reflexivity|]. split; [reflexivity|].
    split; [|reflexivity].
    change (message.Get (message.Set_ ?p ?b)) with b.
    apply Hreader.
    apply (write_parts_entries aw d msg0 msg 0 NewWriter w []); [|exact Hw].
    constructor.
  - intros Hn Hparts.
    exact (binary_archive_round_trip hFunc first rest Hn Hparts).
Qed.

Lemma archive_round_trip_witness :
  let d := mkArchive (tarArchive framed_writer) (fun _ _ => "a.txt"%string) in
  let first := message.mkPart [x68; x69] {[ "k"%string := "v"%string ]} None in
  let rest := [message.NewPart [x79; x6f; x21]] in
  let msg := first :: rest in
  let hFunc := createHeaderFunc d msg in
  reads_back framed_writer framed_reader /\
  (forall w,
     write_parts framed_writer hFunc 0 msg (@NewWriter _ _ framed_writer)
     = (w, None) ->
     exists part,
       tarArchive framed_writer hFunc msg = inl part /\
       zipArchive framed_writer hFunc msg = inl part /\
       framed_reader (message.Get part) = Some (map message.Get msg) /\
       message.metadata part = message.metadata first) /\
  (Z.of_nat (length msg) < 2 ^ 32 ->
   Forall (fun p => Z.of_nat (length (message.Get p)) < 2 ^ 32) msg ->
   exists part,
     binaryArchive hFunc msg = inl part /\
     message.FromBytes (message.Get part) = Some (map message.Get msg) /\
     message.metadata part = message.metadata first).
Proof.
  intros d first rest msg hFunc.
  split; [exact framed_reads_back|].
  exact (archive_round_trip framed_writer framed_reader d msg first rest
           framed_reads_back).
Defined.

(** The framed archive of the parts "hi" and "yo!", written by the tar
    archiver and read back. *)
Example framed_archive_layout :
  let d := mkArchive (tarArchive framed_writer) (fun _ _ => "a.txt"%string) in
  let msg := [message.NewPart [x68; x69]; message.NewPart [x79; x6f; x21]] in
  exists part,
    tarArchive framed_writer (createHeaderFunc d msg) msg = inl part /\
    message.Get part = [x01; x01; x00; x68; x69; x01; x01; x01; x00; x79; x6f; x21] /\
    framed_reader (message.Get part) = Some [[x68; x69]; [x79; x6f; x21]].
Proof. eexists. split; [reflexivity|]. split; vm_compute; reflexivity. Qed.

(** The layout of the [binary] format on two parts, "hi" and "yo!". *)
Example ToBytes_layout :
  message.ToBytes [message.NewPart [x68; x69]; message.NewPart [x79; x6f; x21]]
  = [x00; x00; x00; x02;
     x00; x00; x00; x02; x68; x69;
     x00; x00; x00; x03; x79; x6f; x21].
Proof. vm_compute. reflexivity. Qed.

End ArchiveRoundTrip.

(** ** The fan-out broker: construction, health and dispatch *)

Section FanOutBroker.

Lemma consume_all_ok (rs : list error) (i : nat) :
  Forall (fun r => r = None) rs ->
  FanOut.consume_all rs i = inl (seq i (length rs)).
Proof.
  intros H. revert i. induction H as [|r rs -> _ IH]; intros i; simpl; [done|].
  by rewrite IH.
Qed.

Lemma consume_all_error (pre post : list error) (e : err) (i : nat) :
  Forall (fun r => r = None) pre ->
  FanOut.consume_all (pre ++ Some e :: post) i = inr e.
Proof.
  intros H. revert i. induction H as [|r rs -> _ IH]; intros i; simpl; [done|].
  by rewrite IH.
Qed.

(** [newFanOutOutputBroker]: if every child's [Consume] returns nil, the
    broker is returned unstarted, with one edge per child and no edge shared
    by two children; if a child's [Consume] returns an error after those
    before it returned nil, no broker is returned, only that error. *)
Theorem newFanOutOutputBroker_children (rs : list error) :
  (Forall (fun r => r = None) rs ->
   exists o, FanOut.newFanOutOutputBroker rs = (Some o, None) /\
     FanOut.transactions o = None /\ FanOut.loops o = O /\
     length (FanOut.outputTSChans o) = length rs /\
     NoDup (FanOut.outputTSChans o)) /\
  (forall pre e post, rs = pre ++ Some e :: post ->
     Forall (fun r => r = None) pre ->
     FanOut.newFanOutOutputBroker rs = (None, Some e)).
Proof.
  split.
  - intros H. unfold FanOut.newFanOutOutputBroker. rewrite consume_all_ok by done.
    eexists. split; [reflexivity|]. simpl. repeat split.
    + apply length_seq.
    + apply NoDup_seq.
  - intros pre e post -> H. unfold FanOut.newFanOutOutputBroker.
    by rewrite consume_all_error.
Qed.

(** [Connected]: the broker reports connected exactly when every child
    does; a broker without children reports connected. *)
Theorem Connected_all_children (connected : list bool) :
  FanOut.Connected connected = true <-> Forall (fun c => c = true) connected.
Proof.
  induction connected as [|c cs IH]; simpl.
  - split; [constructor|done].
  - destruct c; simpl.
    + rewrite IH. split; [by constructor|by inversion 1].
    + split; [done|]. inversion 1; done.
Qed.




(** [WaitForClose] of the fan-out broker and of the resource output: nil is
    returned only if the channel waited on was closed by some tick up to the
    timeout; a channel that stays open up to the timeout gives [ErrTimeout];
    a channel closed before the timeout gives nil. *)
Theorem WaitForClose_select (closed : nat -> bool) (pick_timer : bool)
    (timeout : nat) :
  (FanOut.WaitForClose closed pick_timer timeout = None ->
     exists k, (k <= timeout)%nat /\ closed k = true) /\
  ((forall k, (k <= timeout)%nat -> closed k = false) ->
     FanOut.WaitForClose closed pick_timer timeout = Some ErrTimeout) /\
  (forall k, (k < timeout)%nat -> closed k = true ->
     FanOut.WaitForClose closed pick_timer timeout = None) /\
  Resource.WaitForClose closed pick_timer timeout
  = FanOut.WaitForClose closed pick_timer timeout.
Proof.
  repeat split.
  - intros H. by apply select_nil in H.
  - intros H. by apply select_timeout.
  - intros k Hk Hc. by apply (select_closed_before _ _ _ 0 k).
Qed.

(** A first [Consume] that is given a nil channel returns nil and leaves the
    output unstarted: the next [Consume] is accepted too, and a second loop
    is started, on the fan-out broker as on the resource output. *)
Theorem Consume_nil_starts_twice {M : Type} (o : FanOut.fanOutOutputBroker)
    (r : Resource.Resource M) (c : chan) :
  FanOut.transactions o = None ->
  Resource.transactions r = None ->
  let '(o', es) := fan_out_consumes o [None; Some c] in
  let '(r', es') := resource_consumes r [None; Some c] in
  es = [None; None] /\ FanOut.loops o' = S (S (FanOut.loops o)) /\
  FanOut.transactions o' = Some c /\
  es' = [None; None] /\ Resource.loops r' = S (S (Resource.loops r)) /\
  Resource.transactions r' = Some c.
Proof.
  intros Ho Hr. simpl. unfold FanOut.Consume, Resource.Consume.
  rewrite Ho, Hr. simpl. done.
Qed.

Lemma Consume_nil_starts_twice_witness :
  let o := FanOut.mkBroker None [0%nat; 1%nat] Signaller.NewSignaller 0 in
  let r := Resource.mkResource (Resource.mkManager {[ "foo"%string := 3%nat ]})
                               "foo"%string None false 0 false in
  FanOut.transactions o = None /\
  Resource.transactions r = None /\
  let '(o', es) := fan_out_consumes o [None; Some 5%nat] in
  let '(r', es') := resource_consumes r [None; Some 5%nat] in
  es = [None; None] /\ FanOut.loops o' = S (S (FanOut.loops o)) /\
  FanOut.transactions o' = Some 5%nat /\
  es' = [None; None] /\ Resource.loops r' = S (S (Resource.loops r)) /\
  Resource.transactions r' = Some 5%nat.
Proof.
  intros o r. split; [reflexivity|]. split; [reflexivity|].
  exact (Consume_nil_starts_twice o r 5%nat eq_refl eq_refl).
Defined.

End FanOutBroker.

(** ** The resource output: its loop *)

Section ResourceLoop.

Lemma written_snoc (attempts : list (nat * error)) (t : nat) (e : error) :
  written (attempts ++ [(t, e)])
  = written attempts ++ match e with None => [t] | Some _ => [] end.
Proof. unfold written. rewrite omap_app. by destruct e. Qed.

Lemma resource_loop_inv_step (st : Resource.loop_state) (r : Resource.ready) :
  resource_loop_inv st -> resource_loop_inv (Resource.loop_step st r).
Proof.
  destruct st as [pc tk att dn]. unfold resource_loop_inv, Resource.loop_step.
  simpl. destruct pc as [|t|t|]; destruct r as [t'| | |[e|]|]; simpl;
    rewrite ?written_snoc, ?app_nil_r; try done.
  - intros [-> ->]. done.
  - intros [-> _]. by left.
  - intros [-> ->]. by left.
  - intros [-> ->]. done.
  - intros [-> ->]. right. eauto.
Qed.

Lemma resource_loop_inv_run (script : list Resource.ready) :
  resource_loop_inv (Resource.loop script).
Proof.
  unfold Resource.loop.
  assert (H : resource_loop_inv (Resource.mkLoop Resource.Idle [] [] false)) by done.
  revert H. generalize (Resource.mkLoop Resource.Idle [] [] false).
  induction script as [|r script IH]; intros st Hst; [done|].
  simpl. apply IH. by apply resource_loop_inv_step.
Qed.

(** The loop of the resource output writes the transactions in the order it
    takes them, skips none and writes none twice: the transactions written
    are those taken, but for at most one, the last, that is still being
    tried.  It takes a transaction only when the one before is written.  And
    when it has cancelled its own context, which it does when the incoming
    edge is closed, it has returned and every transaction taken is
    written. *)
Theorem resource_loop_writes_in_order (script : list Resource.ready) :
  let st := Resource.loop script in
  (written (Resource.attempts st) = Resource.taken st \/
   exists t, Resource.taken st = written (Resource.attempts st) ++ [t]) /\
  (Resource.loop_at st = Resource.Idle ->
   written (Resource.attempts st) = Resource.taken st) /\
  (Resource.done_called st = true ->
   Resource.loop_at st = Resource.LoopReturned /\
   written (Resource.attempts st) = Resource.taken st).
Proof.
  pose proof (resource_loop_inv_run script) as H. simpl.
  unfold resource_loop_inv in H.
  destruct (Resource.loop_at (Resource.loop script)) as [|t|t|].
  - destruct H as [H1 H2]. repeat split; auto; congruence.
  - destruct H as [H1 H2]. split; [eauto|]. split; [done|congruence].
  - destruct H as [H1 H2]. split; [eauto|]. split; [done|congruence].
  - destruct H as [H|[[t H1] H2]].
    + repeat split; auto.
    + split; [eauto|]. split; [done|congruence].
Qed.

(** A write that fails is tried again with the same transaction after the
    timer, as often as it fails: the loop takes nothing else meanwhile. *)
Theorem resource_loop_retries (t : nat) (errs : list err) :
  let script := Resource.Transaction t ::
    flat_map (fun e => [Resource.Written (Some e); Resource.TimerFired]) errs
    ++ [Resource.Written None] in
  let st := Resource.loop script in
  Resource.loop_at st = Resource.Idle /\
  Resource.taken st = [t] /\
  Resource.attempts st = map (fun e => (t, Some e)) errs ++ [(t, None)].
Proof.
  assert (H : forall att,
    foldl Resource.loop_step
      (Resource.mkLoop (Resource.Writing t) [t] att false)
      (flat_map (fun e => [Resource.Written (Some e); Resource.TimerFired]) errs
       ++ [Resource.Written None])
    = Resource.mkLoop Resource.Idle [t]
        (att ++ map (fun e => (t, Some e)) errs ++ [(t, None)]) false).
  { induction errs as [|e errs IH]; intros att; simpl; [done|].
    unfold Resource.loop_step at 2 3. simpl. rewrite IH.
    by rewrite <- app_assoc. }
  intros script st. subst st script. unfold Resource.loop. cbn [foldl].
  change (Resource.loop_step (Resource.mkLoop Resource.Idle [] [] false)
                             (Resource.Transaction t))
    with (Resource.mkLoop (Resource.Writing t) [t] [] false).
  rewrite (H []). done.
Qed.

Lemma resource_WaitForClose_while_looping_witness :
  let r := Resource.mkResource (Resource.mkManager {[ "foo"%string := 3%nat ]})
                               "foo"%string None false 0 false in
  Resource.transactions r = None /\ (0 < 2)%nat /\
  let r' := Resource.CloseAsync (Resource.Consume r (Some 5%nat)).1 in
  Resource.WaitForClose (fun _ => Resource.ctx_done r') true 2 = None /\
  Resource.looping r' = true /\
  Resource.looping (Resource.loop_return false r') = false.
Proof.
  intros r.
  assert (Ht : (0 < 2)%nat) by exact (Nat.lt_0_succ 1).
  split; [reflexivity|]. split; [exact Ht|].
  exact (resource_WaitForClose_while_looping r 5%nat true 2 eq_refl Ht).
Defined.

End ResourceLoop.

(** ** The writers: connection, writes and shutdown *)

Section WriterSessions.

Import writer.

Lemma disconnect_client (r : RedisList) : list_client (disconnect r) = None.
Proof. unfold disconnect. by destruct (list_client r) eqn:H. Qed.

Lemma WriteWithContext_cases (r : RedisList) (msg : message.Batch) :
  (WriteWithContext r msg = (disconnect r, WriteErr ErrNotConnected)) \/
  (is_Some (list_client r) /\
   (WriteWithContext r msg = (r, WriteNil) \/
    exists b, WriteWithContext r msg = (r, WriteBatchErr b))).
Proof.
  unfold WriteWithContext. destruct (list_client r) as [client|] eqn:Hc.
  - destruct (message.Len msg =? 1)%nat.
    + destruct (RPush client _ _); [by left|]. right. eauto.
    + destruct (Exec client _) as [cmders [e|]]; [by left|].
      destruct (failed_cmders msg cmders 0 None); right; eauto.
  - left. unfold disconnect. by rewrite Hc.
Qed.

(** [WriteWithContext] returns [ErrNotConnected] exactly when it leaves the
    writer without a client: because it had none, or because it closed it
    after the server refused.  It returns no other plain error, and it
    never changes the client for another. *)
Theorem WriteWithContext_not_connected (r : RedisList) (msg : message.Batch) :
  let r' := (WriteWithContext r msg).1 in
  let e := (WriteWithContext r msg).2 in
  (e = WriteErr ErrNotConnected <-> list_client r' = None) /\
  (forall x, e = WriteErr x -> x = ErrNotConnected) /\
  (list_client r' = None \/ r' = r).
Proof.
  simpl. destruct (WriteWithContext_cases r msg) as [H|[[c Hc] [H|[b H]]]];
    rewrite H; simpl.
  - rewrite disconnect_client. repeat split; auto. by intros x [= <-].
  - rewrite Hc. repeat split; try done. by right.
  - rewrite Hc. repeat split; try done. by right.
Qed.

Lemma redis_writes_no_client (r : RedisList) (msgs : list message.Batch) :
  list_client r = None ->
  redis_writes r msgs = (r, replicate (length msgs) (WriteErr ErrNotConnected)).
Proof.
  intros Hc. induction msgs as [|msg msgs IH]; [done|].
  simpl. unfold WriteWithContext. rewrite Hc, IH. done.
Qed.

(** Once a write has returned [ErrNotConnected], every later write returns
    [ErrNotConnected] too and leaves the writer as it is, until [Connect] is
    called: the writer does not reconnect by itself. *)
Theorem redis_writes_after_ErrNotConnected (r : RedisList) (msg : message.Batch)
    (msgs : list message.Batch) :
  (WriteWithContext r msg).2 = WriteErr ErrNotConnected ->
  redis_writes (WriteWithContext r msg).1 msgs
  = ((WriteWithContext r msg).1,
     replicate (length msgs) (WriteErr ErrNotConnected)).
Proof.
  intros He. apply redis_writes_no_client.
  destruct (WriteWithContext_cases r msg) as [H|[_ [H|[b H]]]];
    rewrite H in *; simpl in *; try done.
  apply disconnect_client.
Qed.

Lemma redis_writes_after_ErrNotConnected_witness :
  let client := mkRedisClient (fun _ _ => Some (ErrMsg "EOF"))
                              (fun _ => ([], None)) in
  let r := mkRedisList (fun _ _ => "queue"%string) (Some client) in
  let msg := [message.NewPart [x61]] in
  let msgs := [[message.NewPart [x62]]; [message.NewPart [x63]; message.NewPart [x64]]] in
  (WriteWithContext r msg).2 = WriteErr ErrNotConnected /\
  redis_writes (WriteWithContext r msg).1 msgs
  = ((WriteWithContext r msg).1,
     replicate (length msgs) (WriteErr ErrNotConnected)).
Proof.
  intros client r msg msgs. split; [reflexivity|].
  exact (redis_writes_after_ErrNotConnected r msg msgs eq_refl).
Defined.

(** [Connect] on the Redis list writer.  A client that can be made and
    answers the ping takes the place of whatever client the writer held, and
    nil is returned; the next write of a single part then goes to that
    client: it returns nil and leaves the writer connected when the client's
    RPush does, and otherwise drops the client and returns
    [ErrNotConnected].  Nil is returned in no other case: when the client
    cannot be made, or does not answer the ping, that error is returned and
    the writer is left as it was. *)
Theorem RedisList_Connect_then_write (r : RedisList) (part : message.Part) :
  (forall client,
     let r' := mkRedisList (keyStr r) (Some client) in
     RedisList_Connect (inl client) None r = (r', None) /\
     WriteWithContext r' [part]
     = match RPush client (keyStr r 0%nat [part]) (message.Get part) with
       | None => (r', WriteNil)
       | Some _ => (mkRedisList (keyStr r) None, WriteErr ErrNotConnected)
       end) /\
  (forall new_client ping,
     (RedisList_Connect new_client ping r).2 = None ->
     exists client, new_client = inl client /\ ping = None) /\
  (forall e ping, RedisList_Connect (inr e) ping r = (r, Some e)) /\
  (forall client e, RedisList_Connect (inl client) (Some e) r = (r, Some e)).
Proof.
  split_and!.
  - intros client r'. split; [reflexivity|].
    unfold WriteWithContext. cbn [list_client r' message.Len length Nat.eqb].
    change (message.BatchGet [part] 0) with part. cbn [keyStr].
    by destruct (RPush client _ _).
  - intros new_client ping. unfold RedisList_Connect.
    destruct new_client as [client|e]; [|done].
    destruct ping as [e|]; [done|]. eauto.
  - done.
  - done.
Qed.

Lemma run_all_goroutines {T : Type} (x : T) (gs : list (T -> T)) :
  run_all (mkSpawned x gs) = mkSpawned (foldl (fun y g => g y) x gs) [].
Proof.
  unfold run_all. cbn [goroutines]. revert x.
  induction gs as [|g gs IH]; intros x; [done|].
  cbn [length foldl]. rewrite Nat.iter_succ_r.
  change (run_next (mkSpawned x (g :: gs))) with (mkSpawned (g x) gs).
  apply IH.
Qed.

Lemma CloseAsync_iter {T : Type} (body : T -> T) (k : nat) (w : spawned T) :
  Nat.iter k (fun w => mkSpawned (obj w) (goroutines w ++ [body])) w
  = mkSpawned (obj w) (goroutines w ++ replicate k body).
Proof.
  induction k as [|k IH]; simpl.
  - destruct w. simpl. by rewrite app_nil_r.
  - rewrite IH. simpl. rewrite <- app_assoc. f_equal. f_equal.
    clear IH. induction k; simpl; [done|]. by f_equal.
Qed.

Lemma mqtt_close_body_closed (m : MQTT) (k : nat) :
  mqtt_client m = None ->
  foldl (fun y g => g y) m (replicate k mqtt_close_body) = m.
Proof.
  intros Hc. assert (mqtt_close_body m = m) as Hb.
  { unfold mqtt_close_body. by rewrite Hc. }
  induction k as [|k IH]; [done|].
  cbn [replicate foldl]. by rewrite Hb.
Qed.

Lemma disconnect_closed (r : RedisList) (k : nat) :
  list_client r = None ->
  foldl (fun y g => g y) r (replicate k disconnect) = r.
Proof.
  intros Hc. assert (disconnect r = r) as Hb.
  { unfold disconnect. by rewrite Hc. }
  induction k as [|k IH]; [done|].
  cbn [replicate foldl]. by rewrite Hb.
Qed.

(** However often [CloseAsync] is called on a connected writer, once the
    goroutines it started have run the client is gone and, for the MQTT
    writer, [Disconnect] has been called on the connection once, not once per
    call. *)
Theorem CloseAsync_disconnects_once (k : nat) (c : conn) (d : list conn)
    (key : nat -> message.Batch -> string) (client : RedisClient) :
  run_all (Nat.iter (S k) MQTT_CloseAsync (mkSpawned (mkMQTT (Some c) d) []))
  = mkSpawned (mkMQTT None (c :: d)) [] /\
  run_all (Nat.iter (S k) RedisList_CloseAsync
             (mkSpawned (mkRedisList key (Some client)) []))
  = mkSpawned (mkRedisList key None) [].
Proof.
  split.
  - unfold MQTT_CloseAsync. rewrite CloseAsync_iter, run_all_goroutines.
    cbn [obj goroutines app replicate foldl].
    change (mqtt_close_body (mkMQTT (Some c) d)) with (mkMQTT None (c :: d)).
    by rewrite mqtt_close_body_closed.
  - unfold RedisList_CloseAsync. rewrite CloseAsync_iter, run_all_goroutines.
    cbn [obj goroutines app replicate foldl].
    change (disconnect (mkRedisList key (Some client)))
      with (mkRedisList key None).
    by rewrite disconnect_closed.
Qed.

(** [MQTT.Connect] returns nil exactly when the writer holds a client
    afterwards.  A writer that holds a client keeps it: no second connection
    is made.  [Connect] calls [Disconnect] on nothing. *)
Theorem MQTT_Connect_result (conf : MQTTConfig) (tls_get tok : error)
    (client : conn) (m : MQTT) :
  let m' := (MQTT_Connect conf tls_get tok client m).1 in
  let e := (MQTT_Connect conf tls_get tok client m).2 in
  (e = None <-> is_Some (mqtt_client m')) /\
  (is_Some (mqtt_client m) -> m' = m /\ e = None) /\
  mqtt_disconnected m' = mqtt_disconnected m.
Proof.
  simpl. unfold MQTT_Connect. destruct (mqtt_client m) as [c|] eqn:Hc; simpl.
  - rewrite Hc. split_and!; [split; eauto | done | done].
  - destruct (if TLSEnabled conf then tls_get else None) as [e|]; simpl.
    + rewrite Hc. split_and!; [split; [done | by intros [? ?]] | by intros [? ?] | done].
    + destruct tok as [e|]; simpl.
      * rewrite Hc.
        split_and!; [split; [done | by intros [? ?]] | by intros [? ?] | done].
      * split_and!; [split; eauto | by intros [? ?] | done].
Qed.

End WriterSessions.

(** ** The writers: construction *)

Section WriterConstruction.

Import writer.

Lemma parse_fields_ok (nf : string -> Expression + err)
    (kvs : list (string * string)) :
  forall acc fs, NoDup kvs.*1 -> parse_fields nf kvs acc = inl fs ->
  (forall k v, (k, v) ∈ kvs -> exists x, nf v = inl x /\ fs !! k = Some x) /\
  (forall k, k ∉ kvs.*1 -> fs !! k = acc !! k).
Proof.
  induction kvs as [|[k v] kvs IH]; intros acc fs Hnd H; simpl in *.
  - inversion H; subst. split; [|done].
    intros k v Hin. by apply elem_of_nil in Hin.
  - destruct (nf v) as [x|e] eqn:Hv; [|done].
    apply NoDup_cons in Hnd as [Hk Hnd].
    destruct (IH _ _ Hnd H) as [H1 H2]. split.
    + intros k' v' Hin. apply elem_of_cons in Hin as [Heq|Hin].
      * inversion Heq; subst. exists x. split; [done|].
        rewrite (H2 k Hk). apply lookup_insert_eq.
      * by apply H1.
    + intros k' Hk'. apply not_elem_of_cons in Hk' as [Hne Hk'].
      rewrite (H2 k' Hk'). by apply lookup_insert_ne.
Qed.

Lemma parse_fields_complete (nf : string -> Expression + err)
    (kvs : list (string * string)) :
  forall acc, (forall k v, (k, v) ∈ kvs -> exists x, nf v = inl x) ->
  exists fs, parse_fields nf kvs acc = inl fs.
Proof.
  induction kvs as [|[k v] kvs IH]; intros acc H; simpl; [eauto|].
  destruct (H k v) as [x ->]; [left|].
  apply IH. intros k' v' Hin. apply (H k' v'). by right.
Qed.

Lemma no_mechanism (conf : RedisHashConfig) :
  negb (WalkMetadata conf) && negb (WalkJSONObject conf)
    && (length (map_to_list (Fields conf)) =? 0)%nat = false <->
  WalkMetadata conf = true \/ WalkJSONObject conf = true \/ Fields conf <> ∅.
Proof.
  rewrite <- (map_to_list_empty_iff (Fields conf)).
  destruct (WalkMetadata conf), (WalkJSONObject conf),
    (map_to_list (Fields conf)); simpl; intuition congruence.
Qed.

(** [NewRedisHashV2] returns a writer exactly when the key parses, every
    configured field parses, a mechanism for setting fields is enabled
    (walking the metadata, walking the JSON object, or a field) and the
    client configuration is accepted. *)
Theorem NewRedisHashV2_succeeds_iff (nf : string -> Expression + err)
    (client : error) (conf : RedisHashConfig) :
  (exists f h, NewRedisHashV2 nf client conf = inl (f, h)) <->
  (exists k, nf (Key conf) = inl k) /\
  (forall key v, Fields conf !! key = Some v -> exists x, nf v = inl x) /\
  (WalkMetadata conf = true \/ WalkJSONObject conf = true \/ Fields conf <> ∅) /\
  client = None.
Proof.
  unfold NewRedisHashV2. split.
  - intros (f & h & H).
    destruct (nf (Key conf)) as [k|e] eqn:Hk; [|done].
    destruct (parse_fields nf (map_to_list (Fields conf)) ∅) as [fs|e] eqn:Hfs;
      [|done].
    destruct (negb _ && _ && _) eqn:Hm; [done|].
    destruct client as [e|]; [done|].
    split_and!; eauto.
    + intros key v Hl. apply elem_of_map_to_list in Hl.
      destruct (parse_fields_ok nf _ _ _ (NoDup_fst_map_to_list _) Hfs) as [H1 _].
      destruct (H1 key v Hl) as (x & Hx & _). eauto.
    + by apply no_mechanism.
  - intros ((k & Hk) & Hf & Hm & ->). rewrite Hk.
    destruct (parse_fields_complete nf (map_to_list (Fields conf)) ∅) as [fs ->].
    { intros key v Hin. apply elem_of_map_to_list in Hin. eauto. }
    apply no_mechanism in Hm. rewrite Hm. eauto.
Qed.

(** The writer that [NewRedisHashV2] returns is not connected, holds the
    parsed key, and has for every configured field, and for no other name,
    the expression parsed from the field's text. *)
Theorem NewRedisHashV2_fields (nf : string -> Expression + err)
    (client : error) (conf : RedisHashConfig) (f : RedisHashFields)
    (h : RedisHash) :
  NewRedisHashV2 nf client conf = inl (f, h) ->
  hash_client h = None /\
  nf (Key conf) = inl (hash_keyStr f) /\
  forall key, hash_fields f !! key = Fields conf !! key ≫= parsed_field nf.
Proof.
  unfold NewRedisHashV2. intros H.
  destruct (nf (Key conf)) as [k|e] eqn:Hk; [|done].
  destruct (parse_fields nf (map_to_list (Fields conf)) ∅) as [fs|e] eqn:Hfs;
    [|done].
  destruct (negb _ && _ && _) eqn:Hm; [done|].
  destruct client as [e|]; [done|].
  inversion H; subst. split_and!; try done.
  intros key. cbn [hash_fields].
  destruct (parse_fields_ok nf _ _ _ (NoDup_fst_map_to_list _) Hfs) as [H1 H2].
  destruct (Fields conf !! key) as [v|] eqn:Hl; simpl.
  - apply elem_of_map_to_list in Hl. destruct (H1 key v Hl) as (x & Hx & ->).
    unfold parsed_field. by rewrite Hx.
  - rewrite H2; [done|]. intros Hin.
    apply list_elem_of_fmap in Hin as ([k' v'] & -> & Hin).
    apply elem_of_map_to_list in Hin. simpl in Hl. congruence.
Qed.

Lemma NewRedisHashV2_fields_witness :
  let nf := fun v : string =>
    if String.eqb v "" then inr (ErrMsg "empty")
    else inl (fun (_ : nat) (_ : message.Batch) => v) in
  let conf := mkRedisHashConfig "key" false false {[ "a"%string := "x"%string ]} in
  let f := mkRedisHashFields (fun _ _ => "key"%string)
                             (<[ "a"%string := fun _ _ => "x"%string ]> ∅) in
  let h := mkRedisHash None in
  NewRedisHashV2 nf None conf = inl (f, h) /\
  hash_client h = None /\
  nf (Key conf) = inl (hash_keyStr f) /\
  forall key, hash_fields f !! key = Fields conf !! key ≫= parsed_field nf.
Proof.
  intros nf conf f h.
  assert (NewRedisHashV2 nf None conf = inl (f, h)) as H by (vm_compute; reflexivity).
  split; [exact H|].
  exact (NewRedisHashV2_fields nf None conf f h H).
Defined.

Lemma split_comma_not_nil (s : string) : split_comma s <> [].
Proof.
  induction s as [|c s IH]; simpl; [done|].
  destruct (Ascii.eqb c ","); [done|]. by destruct (split_comma s).
Qed.

Lemma split_comma_comma_free (s : string) :
  Forall (fun u => comma_free u = true) (split_comma s).
Proof.
  induction s as [|c s IH]; simpl.
  - by constructor.
  - destruct (Ascii.eqb c ",") eqn:Hc.
    + by constructor.
    + destruct (split_comma s) as [|h t].
      * constructor; [|done]. simpl. by rewrite Hc.
      * inversion IH; subst. constructor; [|done]. simpl. by rewrite Hc.
Qed.

Lemma split_comma_clean (u : string) :
  comma_free u = true -> split_comma u = [u].
Proof.
  induction u as [|c u IH]; simpl; [done|].
  destruct (Ascii.eqb c ","); simpl; [done|].
  intros H. by rewrite IH.
Qed.

Lemma split_comma_join (u rest : string) :
  comma_free u = true ->
  split_comma (u +:+ String "," rest) = u :: split_comma rest.
Proof.
  induction u as [|c u IH]; simpl; [done|].
  destruct (Ascii.eqb c ","); simpl; [done|].
  intros H. by rewrite IH.
Qed.

Lemma nonempty_length (u : string) : (0 < String.length u)%nat <-> u <> EmptyString.
Proof. destruct u; simpl; split; (done || lia). Qed.

Lemma expand_urls_cons (u : string) (rest : list string) :
  expand_urls (u :: rest)
  = filter (fun splitURL => (0 < String.length splitURL)%nat) (split_comma u)
    ++ expand_urls rest.
Proof. done. Qed.

Lemma expand_urls_clean (us : list string) :
  Forall clean_url us -> expand_urls us = us.
Proof.
  induction 1 as [|u us [Hne Hcf] _ IH]; [done|].
  rewrite expand_urls_cons, IH, (split_comma_clean u Hcf).
  rewrite filter_cons_True by by apply nonempty_length. done.
Qed.

Lemma expand_urls_all_clean (us : list string) :
  Forall clean_url (expand_urls us).
Proof.
  induction us as [|u us IH]; [constructor|].
  rewrite expand_urls_cons. apply Forall_app. split; [|done].
  apply Forall_forall. intros x Hx.
  apply list_elem_of_filter in Hx as [Hlen Hx]. split.
  - by apply nonempty_length.
  - by apply (proj1 (Forall_forall _ _) (split_comma_comma_free u)).
Qed.

(** The URLs that [NewMQTTV2] hands to the client: every configured URL is
    cut at its commas and the empty pieces are dropped.  Each resulting URL
    is non-empty and has no comma; URLs that are so already are kept as they
    are, in order; and giving the list through once more changes nothing. *)
Theorem expand_urls_clean_urls (us : list string) :
  Forall clean_url (expand_urls us) /\
  (Forall clean_url us -> expand_urls us = us) /\
  expand_urls (expand_urls us) = expand_urls us.
Proof.
  pose proof (expand_urls_all_clean us) as H.
  split_and!; [done|apply expand_urls_clean|by apply expand_urls_clean].
Qed.

(** One configured URL that lists several brokers with commas between them
    gives exactly those brokers, in order. *)
Theorem expand_urls_join (us : list string) :
  Forall clean_url us -> expand_urls [join_comma us] = us.
Proof.
  intros H. rewrite expand_urls_cons. cbn [expand_urls flat_map].
  rewrite app_nil_r.
  induction H as [|u us [Hne Hcf] Hus IH]; [done|].
  destruct us as [|u2 us].
  - cbn [join_comma]. rewrite (split_comma_clean u Hcf).
    by rewrite filter_cons_True by by apply nonempty_length.
  - change (join_comma (u :: u2 :: us))
      with (u +:+ String "," (join_comma (u2 :: us))).
    rewrite (split_comma_join u _ Hcf).
    rewrite filter_cons_True by by apply nonempty_length.
    by rewrite IH.
Qed.

Lemma expand_urls_join_witness :
  Forall clean_url ["tcp://a:1883"; "tcp://b:1883"]%string /\
  expand_urls [join_comma ["tcp://a:1883"; "tcp://b:1883"]%string]
  = ["tcp://a:1883"; "tcp://b:1883"]%string.
Proof.
  assert (Forall clean_url ["tcp://a:1883"; "tcp://b:1883"]%string) as H.
  { repeat constructor; done. }
  split; [exact H|]. exact (expand_urls_join _ H).
Defined.

(** A writer that [NewMQTTV2] returns is not connected and has disconnected
    nothing; its URLs are non-empty and comma-free; its retained expression is
    absent exactly when the configuration gives none; and its client id is
    the configured one, with a nanoid after it exactly when the suffix
    "nanoid" is configured.  No other suffix than that and the empty one
    yields a writer, and neither does a will that does not validate. *)
Theorem NewMQTTV2_writer (env : MQTTEnv) (conf : MQTTConfig)
    (f : MQTTFields) (m : MQTT) :
  NewMQTTV2 env conf = inl (f, m) ->
  m = mkMQTT None [] /\
  urls f = expand_urls (URLs conf) /\ Forall clean_url (urls f) /\
  (retained f = None <-> RetainedInterpolated conf = EmptyString) /\
  ((DynamicClientIDSuffix conf = EmptyString /\ clientID f = ClientID conf) \/
   (DynamicClientIDSuffix conf = "nanoid"%string /\
    exists nid, nanoid env = inl nid /\ clientID f = ClientID conf +:+ nid)) /\
  WillValidate env = None.
Proof.
  unfold NewMQTTV2. intros H.
  destruct (ParseDuration env (ConnectTimeout conf)) as [ct|e]; [|done].
  destruct (ParseDuration env (WriteTimeout conf)) as [wt|e]; [|done].
  destruct (NewField env (Topic conf)) as [tp|e]; [|done].
  destruct (if String.eqb (RetainedInterpolated conf) "" then _ else _)
    as [rt|e] eqn:Hrt; [|done].
  destruct (if String.eqb (DynamicClientIDSuffix conf) "nanoid" then _ else _)
    as [cid|e] eqn:Hcid; [|done].
  destruct (WillValidate env) as [e|]; [done|].
  inversion H; subst. cbn [urls retained clientID].
  split_and!; try done.
  - apply expand_urls_all_clean.
  - destruct (String.eqb (RetainedInterpolated conf) "") eqn:Heq.
    + apply String.eqb_eq in Heq. inversion Hrt; subst. done.
    + apply String.eqb_neq in Heq.
      destruct (NewField env (RetainedInterpolated conf)); inversion Hrt; subst.
      done.
  - destruct (String.eqb (DynamicClientIDSuffix conf) "nanoid") eqn:Hn.
    + apply String.eqb_eq in Hn. right. split; [done|].
      destruct (nanoid env) as [nid|e]; inversion Hcid; subst. eauto.
    + destruct (String.eqb (DynamicClientIDSuffix conf) "") eqn:He; [|done].
      apply String.eqb_eq in He. left. inversion Hcid; subst. done.
Qed.

Lemma NewMQTTV2_writer_witness :
  let env := mkMQTTEnv (fun _ => inl 3%Z) (fun v => inl (fun _ _ => v))
                       (inl "V1StGXR8"%string) None in
  let conf := mkMQTTConfig ["tcp://a:1883,tcp://b:1883"%string] "t" ""
                           "benthos-" "nanoid" "30s" "3s" false in
  let f := mkMQTTFields 3 3 ["tcp://a:1883"; "tcp://b:1883"]%string
                        "benthos-V1StGXR8" (fun _ _ => "t"%string) None in
  let m := mkMQTT None [] in
  NewMQTTV2 env conf = inl (f, m) /\
  m = mkMQTT None [] /\
  urls f = expand_urls (URLs conf) /\ Forall clean_url (urls f) /\
  (retained f = None <-> RetainedInterpolated conf = EmptyString) /\
  ((DynamicClientIDSuffix conf = EmptyString /\ clientID f = ClientID conf) \/
   (DynamicClientIDSuffix conf = "nanoid"%string /\
    exists nid, nanoid env = inl nid /\ clientID f = ClientID conf +:+ nid)) /\
  WillValidate env = None.
Proof.
  intros env conf f m.
  assert (NewMQTTV2 env conf = inl (f, m)) as H by (vm_compute; reflexivity).
  split; [exact H|].
  exact (NewMQTTV2_writer env conf f m H).
Defined.

End WriterConstruction.

(** ** The archive formats *)

Section ArchiveFormats.

Import archive.

Context {TW TH ZW ZH : Type}.
Context (tarW : ArchiveWriter TW TH) (zipW : ArchiveWriter ZW ZH).

Lemma strToArchiver_formats (str : string) :
  (str ∈ formats -> exists f, strToArchiver tarW zipW str = inl f) /\
  (str ∉ formats ->
   strToArchiver tarW zipW str
   = inr (ErrMsg ("archive format not recognised: " +:+ str))).
Proof.
  unfold strToArchiver, formats.
  repeat match goal with
  | |- context [String.eqb str ?x] =>
      destruct (String.eqb_spec str x) as [->|?];
        [split; [eauto | intros Hn; exfalso; apply Hn;
                         repeat (first [by left | right])]|]
  end.
  split; [|done].
  intros Hin. repeat (apply elem_of_cons in Hin as [Hin|Hin]; [done|]).
  by apply elem_of_nil in Hin.
Qed.

(** [newArchive] returns a processor exactly when the path expression parses
    and the format is one of tar, zip, binary, lines, json_array and
    concatenate.  A path that does not parse is reported whatever the format
    is; an unknown format is reported by its name. *)
Theorem newArchive_formats
    (new_field : string -> (nat -> message.Batch -> string) + err)
    (conf_Format conf_Path : string) :
  ((exists d, newArchive tarW zipW new_field conf_Format conf_Path = inl d) <->
   (exists p, new_field conf_Path = inl p) /\ conf_Format ∈ formats) /\
  (forall e, new_field conf_Path = inr e ->
     newArchive tarW zipW new_field conf_Format conf_Path
     = inr (ErrWrap "failed to parse path expression" e)) /\
  (forall p, new_field conf_Path = inl p -> conf_Format ∉ formats ->
     newArchive tarW zipW new_field conf_Format conf_Path
     = inr (ErrMsg ("archive format not recognised: " +:+ conf_Format))).
Proof.
  destruct (strToArchiver_formats conf_Format) as [Hin Hout].
  unfold newArchive. split_and!.
  - split.
    + intros [d H]. destruct (new_field conf_Path) as [p|e]; [|done].
      split; [eauto|].
      destruct (decide (conf_Format ∈ formats)) as [|Hn]; [done|].
      by rewrite (Hout Hn) in H.
    + intros [[p ->] Hf]. destruct (Hin Hf) as [f ->]. eauto.
  - by intros e ->.
  - intros p -> Hn. by rewrite (Hout Hn).
Qed.

Lemma write_parts_app {W H : Type} (aw : ArchiveWriter W H)
    (hFunc : headerFunc) (l1 l2 : message.Batch) :
  forall (i : nat) (w : W),
  write_parts aw hFunc i (l1 ++ l2) w
  = match write_parts aw hFunc i l1 w with
    | (w1, None) => write_parts aw hFunc (i + length l1) l2 w1
    | (w1, Some e) => (w1, Some e)
    end.
Proof.
  induction l1 as [|part l1 IH]; intros i w; simpl.
  - by rewrite Nat.add_0_r.
  - destruct (FileInfoHeader (hFunc i part)) as [hdr|e]; [|done].
    destruct (WriteHeader w hdr) as [w1 [e|]]; [done|].
    destruct (Write w1 (message.Get part)) as [w2 [e|]]; [done|].
    rewrite IH. by replace (i + S (length l1))%nat with (S i + length l1)%nat by lia.
Qed.

(** The tar and zip archivers stop at the first entry that fails: when the
    entries of a batch cannot be written, no longer batch that starts with it
    can be archived, and the error is the same. *)
Theorem archive_first_error {W H : Type} (aw : ArchiveWriter W H)
    (hFunc : headerFunc) (l1 l2 : message.Batch) (w : W) (e : err) :
  write_parts aw hFunc 0 l1 NewWriter = (w, Some e) ->
  tarArchive aw hFunc l1 = inr e /\
  tarArchive aw hFunc (l1 ++ l2) = inr e /\
  zipArchive aw hFunc (l1 ++ l2) = inr e.
Proof.
  intros Hw. unfold tarArchive, zipArchive.
  rewrite write_parts_app, Hw. done.
Qed.

Lemma archive_first_error_witness :
  let hFunc := createHeaderFunc (mkArchive (tarArchive strict_writer)
                                           (fun _ _ => "f"%string)) [] in
  let l1 := [message.NewPart [x61]; message.NewPart []] in
  let l2 := [message.NewPart [x62]] in
  write_parts strict_writer hFunc 0 l1 (@NewWriter _ _ strict_writer)
  = ([x66; x61], Some (ErrMsg "empty entry")) /\
  tarArchive strict_writer hFunc l1 = inr (ErrMsg "empty entry") /\
  tarArchive strict_writer hFunc (l1 ++ l2) = inr (ErrMsg "empty entry") /\
  zipArchive strict_writer hFunc (l1 ++ l2) = inr (ErrMsg "empty entry").
Proof.
  intros hFunc l1 l2.
  assert (write_parts strict_writer hFunc 0 l1 (@NewWriter _ _ strict_writer)
          = ([x66; x61], Some (ErrMsg "empty entry"))) as Hw by reflexivity.
  split; [exact Hw|].
  exact (archive_first_error strict_writer hFunc l1 l2 _ _ Hw).
Defined.

Lemma Join_cons (p q : list byte) (rest : list (list byte)) (sep : list byte) :
  Join (p :: q :: rest) sep = p ++ sep ++ Join (q :: rest) sep.
Proof. done. Qed.

Lemma line_split (p q a b : list byte) :
  line_free p -> line_free q -> p ++ x0a :: a = q ++ x0a :: b ->
  p = q /\ a = b.
Proof.
  unfold line_free. revert q.
  induction p as [|c p IH]; intros [|d q] Hp Hq H; simpl in H.
  - by inversion H.
  - inversion H; subst. exfalso. apply Hq. left.
  - inversion H; subst. exfalso. apply Hp. left.
  - inversion H; subst. destruct (IH q) as [-> ->]; try done.
    + intros Hin. apply Hp. by right.
    + intros Hin. apply Hq. by right.
Qed.

Lemma line_no_split (p q b : list byte) :
  line_free p -> p <> q ++ x0a :: b.
Proof.
  unfold line_free. intros Hp ->. apply Hp.
  apply elem_of_app. right. left.
Qed.

Lemma Join_lines_inj (l1 : list (list byte)) :
  forall l2, l1 <> [] -> l2 <> [] ->
  Forall line_free l1 -> Forall line_free l2 ->
  Join l1 [x0a] = Join l2 [x0a] -> l1 = l2.
Proof.
  induction l1 as [|p r1 IH]; intros [|q r2] Hn1 Hn2 H1 H2 HJ; try done.
  inversion H1 as [|? ? Hp Hr1]; inversion H2 as [|? ? Hq Hr2]; subst.
  destruct r1 as [|p2 r1], r2 as [|q2 r2].
  - simpl in HJ. by subst.
  - rewrite Join_cons in HJ. simpl in HJ. by apply line_no_split in HJ.
  - rewrite Join_cons in HJ. simpl in HJ. symmetry in HJ.
    by apply line_no_split in HJ.
  - rewrite !Join_cons in HJ. cbn [app] in HJ.
    apply line_split in HJ as [-> HJ]; try done.
    f_equal. by apply IH.
Qed.

(** The [lines] archiver loses nothing on payloads that hold no line break:
    two non-empty batches of such payloads that are archived to the same
    payload have the same payloads, part by part. *)
Theorem linesArchive_line_free_inj (h1 h2 : headerFunc)
    (msg1 msg2 : message.Batch) (p1 p2 : message.Part) :
  msg1 <> [] -> msg2 <> [] ->
  Forall (fun p => line_free (message.Get p)) msg1 ->
  Forall (fun p => line_free (message.Get p)) msg2 ->
  linesArchive h1 msg1 = inl p1 -> linesArchive h2 msg2 = inl p2 ->
  message.Get p1 = message.Get p2 ->
  map message.Get msg1 = map message.Get msg2.
Proof.
  intros Hn1 Hn2 H1 H2 Hp1 Hp2 Hg.
  unfold linesArchive in *. inversion Hp1; subst. inversion Hp2; subst.
  cbn [message.Get message.Set_ message.data] in Hg.
  apply Join_lines_inj; try done.
  - by destruct msg1.
  - by destruct msg2.
  - by apply Forall_fmap.
  - by apply Forall_fmap.
Qed.

Lemma linesArchive_line_free_inj_witness :
  let h := fun (_ : nat) (_ : message.Part) => mkFakeInfo "f" 0 438 in
  let msg1 := [message.NewPart [x61]; message.NewPart [x62]] in
  let msg2 := [message.mkPart [x61] {[ "k"%string := "v"%string ]} None;
               message.NewPart [x62]] in
  map message.Get msg1 = map message.Get msg2.
Proof.
  intros h msg1 msg2.
  refine (linesArchive_line_free_inj h h msg1 msg2 _ _ _ _ _ _ eq_refl eq_refl
            eq_refl); try done.
  - repeat constructor; unfold line_free; vm_compute;
      intros Hin; repeat (inversion Hin as [|? ? ? Hin']; subst; clear Hin;
                          rename Hin' into Hin).
  - repeat constructor; unfold line_free; vm_compute;
      intros Hin; repeat (inversion Hin as [|? ? ? Hin']; subst; clear Hin;
                          rename Hin' into Hin).
Defined.

Lemma Join_length (l : list (list byte)) (sep : list byte) :
  length (Join l sep)
  = (foldr (fun p n => length p + n) 0 l + (length l - 1) * length sep)%nat.
Proof.
  induction l as [|p [|q rest] IH]; [done|simpl; lia|].
  rewrite Join_cons, !length_app, IH. simpl. lia.
Qed.

(** The sizes of the text archives: a [concatenate] archive is as long as the
    payloads together, and a [lines] archive of n parts has n - 1 bytes more,
    the line breaks between them.  Both keep a single part's payload as it
    is. *)
Theorem text_archive_sizes (hFunc : headerFunc) (msg : message.Batch) :
  exists pl pc,
    linesArchive hFunc msg = inl pl /\
    concatenateArchive hFunc msg = inl pc /\
    length (message.Get pc) = total_size msg /\
    length (message.Get pl) = (total_size msg + (length msg - 1))%nat /\
    (forall part, msg = [part] ->
       message.Get pl = message.Get part /\ message.Get pc = message.Get part).
Proof.
  unfold linesArchive, concatenateArchive. do 2 eexists.
  split; [reflexivity|]. split; [reflexivity|].
  cbn [message.Get message.Set_ message.data]. split_and!.
  - unfold total_size. induction msg as [|p msg IH]; [done|].
    simpl. rewrite length_app, IH. done.
  - rewrite Join_length, length_map. simpl. unfold total_size.
    f_equal; [|lia]. induction msg as [|p msg IH]; [done|].
    simpl. by rewrite IH.
  - intros part ->. simpl. by rewrite app_nil_r.
Qed.

Lemma json_docs_inl (parts : message.Batch) :
  forall acc arr, json_docs parts acc = inl arr <->
  exists docs, Forall2 (fun p d => message.JSON p = inl d) parts docs /\
               arr = acc ++ docs.
Proof.
  induction parts as [|part rest IH]; intros acc arr; simpl.
  - split.
    + intros H. inversion H; subst. exists []. split; [constructor|].
      by rewrite app_nil_r.
    + intros (docs & Hf & ->). inversion Hf; subst. by rewrite app_nil_r.
  - destruct (message.JSON part) as [doc|jerr] eqn:Hj.
    + rewrite IH. split.
      * intros (docs & Hf & ->). exists (doc :: docs).
        split; [by constructor|]. by rewrite <- app_assoc.
      * intros (docs & Hf & ->). inversion Hf as [|? d ? docs' Hd Hf']; subst.
        exists docs'. split; [done|].
        rewrite Hj in Hd. inversion Hd; subst. by rewrite <- app_assoc.
    + split; [done|]. intros (docs & Hf & _).
      inversion Hf as [|? d ? docs' Hd Hf']; subst. congruence.
Qed.

Lemma json_docs_inr (parts : message.Batch) :
  forall acc e, json_docs parts acc = inr e <->
  exists before part after jerr,
    parts = before ++ part :: after /\
    Forall (fun q => exists d, message.JSON q = inl d) before /\
    message.JSON part = inr jerr /\
    e = ErrWrap "failed to parse message as JSON" jerr.
Proof.
  induction parts as [|part rest IH]; intros acc e; simpl.
  - split; [done|]. intros (before & p & after & jerr & H & _).
    by destruct before.
  - destruct (message.JSON part) as [doc|jerr] eqn:Hj.
    + rewrite IH. split.
      * intros (before & p & after & je & -> & Hb & Hp & ->).
        exists (part :: before), p, after, je. split_and!; try done.
        constructor; eauto.
      * intros (before & p & after & je & H & Hb & Hp & ->).
        destruct before as [|b before]; simpl in H; inversion H; subst.
        { congruence. }
        inversion Hb; subst. exists before, p, after, je. done.
    + split.
      * intros H. inversion H; subst. exists [], part, rest, jerr. done.
      * intros (before & p & after & je & H & Hb & Hp & ->).
        destruct before as [|b before]; simpl in H; inversion H; subst.
        { congruence. }
        inversion Hb as [|? ? [d Hd] ?]; subst. congruence.
Qed.

(** The [json_array] archiver returns a part exactly when every part of the
    batch is a JSON document, and the part is then the first part of the
    batch with the array of the documents, in order, as its structured
    content.  Otherwise it returns the error of the first part that is not
    a JSON document, under the words "failed to parse message as JSON". *)
Theorem jsonArrayArchive_result (hFunc : headerFunc) (msg : message.Batch) :
  (forall p, jsonArrayArchive hFunc msg = inl p <->
     exists docs, Forall2 (fun q d => message.JSON q = inl d) msg docs /\
       p = message.SetJSON (message.BatchGet msg 0) (JSON.Array docs)) /\
  (forall e, jsonArrayArchive hFunc msg = inr e <->
     exists before part after jerr,
       msg = before ++ part :: after /\
       Forall (fun q => exists d, message.JSON q = inl d) before /\
       message.JSON part = inr jerr /\
       e = ErrWrap "failed to parse message as JSON" jerr).
Proof.
  unfold jsonArrayArchive. split.
  - intros p. destruct (json_docs msg []) as [array|e] eqn:Hd.
    + apply json_docs_inl in Hd as (docs & Hf & ->). simpl. split.
      * intros H. inversion H; subst. eauto.
      * intros (docs' & Hf' & ->). do 3 f_equal.
        clear -Hf Hf'. revert docs' Hf'.
        induction Hf as [|q d msg docs Hq Hf IH]; intros docs' Hf';
          inversion Hf' as [|? d' ? docs'' Hq' Hf'']; subst; [done|].
        f_equal; [congruence|by apply IH].
    + split; [done|]. intros (docs & Hf & _).
      assert (json_docs msg [] = inl ([] ++ docs)) as Hok
        by (apply json_docs_inl; eauto).
      congruence.
  - intros e. rewrite <- (json_docs_inr msg [] e).
    destruct (json_docs msg []) as [array|e0]; split; intros H;
      by inversion H.
Qed.

End ArchiveFormats.
